(** * mindball: the band-power streaming pipeline of [websocket.py]

    A shallow embedding of the capture loop, the spectral analysis, the
    min/max normalisation and the websocket fan-out, and the properties the
    design document states about them.

    Number model.  Every [float32]/[float64] the program handles is a finite
    binary fraction, hence a rational: samples and band powers are values of
    [Q].  Comparisons, [min], [max] and [==] are exact on floats and are
    modelled exactly.  The arithmetic of line 38, which turns a band power
    into the published value, is modelled twice: [normalize_rounded] rounds
    the result of every operation by a rounding function [rnd], as [float64]
    does, and [normalize] is its instance for the rounding that changes
    nothing; both update the bounds alike and return no value on the same
    inputs.  In the spectral analysis [+ - * /] and the sum of an array are
    the exact rational operations (its rounding error is outside the model).
    The cosines and sines behind the Hamming taper and the Fourier
    transform, whose exact values are not rational, are parameters.  Python
    [int]s are [Z], lengths and indices are [nat]. *)

From Stdlib Require Import QArith Qround Qabs Lqa ZArith Lia.
From stdpp Require Import gmap list strings pretty.

Local Open Scope Q_scope.

(** ** Module constants *)

Definition FS : Z := 44100.
Definition BETA_MIN_F : Q := 12.
Definition BETA_MAX_F : Q := 30.

(** ** Python built-ins on floats *)

Definition Qlt_bool (x y : Q) : bool := negb (Qle_bool y x).

(** [min(a, b)]: the first argument is kept unless the second is smaller. *)
Definition py_min (a b : Q) : Q := if Qlt_bool b a then b else a.

(** [max(a, b)]: the first argument is kept unless the second is larger. *)
Definition py_max (a b : Q) : Q := if Qlt_bool a b then b else a.

(** [int(round(x))]: rounding to the nearest integer, ties to the even one. *)
Definition py_round (x : Q) : Z :=
  let f := Qfloor x in
  match Qcompare (x - inject_Z f) (1 # 2) with
  | Lt => f
  | Gt => (f + 1)%Z
  | Eq => if Z.even f then f else (f + 1)%Z
  end.

(** ** Normalizer: lines 34-39 of [process_block] *)

Definition normalize (beta_power : Q) (min_b max_b : option Q) : option Z * Q * Q :=
  let min_b := match min_b with None => beta_power | Some m => py_min m beta_power end in
  let max_b := match max_b with None => beta_power | Some m => py_max m beta_power end in
  if Qeq_bool max_b min_b then (None, min_b, max_b)
  else
    let value := py_round ((beta_power - min_b) / (max_b - min_b) * 100) in
    (Some value, min_b, max_b).

(** Line 38 with the result of every operation rounded by [rnd], as the
    [float64] operations round theirs. *)
Definition rounded_value (rnd : Q → Q) (beta_power min_b max_b : Q) : Z :=
  py_round (rnd (rnd (rnd (beta_power - min_b) / rnd (max_b - min_b)) * 100)).

(** A rounding to try things on: down to the next multiple of [1/16]. *)
Definition round_down_16 (x : Q) : Q := inject_Z (Qfloor (x * 16)) / 16.

(** The components of the returned triple [(value, min_b, max_b)]. *)
Definition value_of (r : option Z * Q * Q) : option Z := r.1.1.
Definition min_seen (r : option Z * Q * Q) : Q := r.1.2.
Definition max_seen (r : option Z * Q * Q) : Q := r.2.

(** The bounds as [audio_loop] holds them: [min_beta = max_beta = None] at
    start, rebound to what [process_block] returns after every window. *)
Definition bounds : Type := option Q * option Q.

Definition no_bounds : bounds := (None, None).

(** Feeding a sequence of band-power samples, oldest first: the triple
    returned for each sample. *)
Fixpoint feed (st : bounds) (samples : list Q) : list (option Z * Q * Q) :=
  match samples with
  | [] => []
  | s :: rest =>
      let '(val, min_beta, max_beta) := normalize s st.1 st.2 in
      (val, min_beta, max_beta) :: feed (Some min_beta, Some max_beta) rest
  end.

(** The bounds [audio_loop] holds after a sequence of samples. *)
Definition bounds_after (st : bounds) (samples : list Q) : bounds :=
  foldl (λ st s, let r := normalize s st.1 st.2 in
                 (Some (min_seen r), Some (max_seen r))) st samples.

(** Lines 34-39 with the arithmetic of line 38 as [float64] does it: [min],
    [max] and [==] are exact, the subtractions, the division and the
    multiplication each round their result by [rnd].  A divisor that rounds
    to zero makes the quotient an infinity or not a number, on which [round]
    raises: that outcome is [None], and no triple is returned. *)
Definition normalize_rounded (rnd : Q → Q) (beta_power : Q) (min_b max_b : option Q)
    : option (option Z * Q * Q) :=
  let min_b := match min_b with None => beta_power | Some m => py_min m beta_power end in
  let max_b := match max_b with None => beta_power | Some m => py_max m beta_power end in
  if Qeq_bool max_b min_b then Some (None, min_b, max_b)
  else if Qeq_bool (rnd (max_b - min_b)) 0 then None
  else
    let value := rounded_value rnd beta_power min_b max_b in
    Some (Some value, min_b, max_b).

(** Feeding a sequence of samples to the rounded update: the triples
    returned, up to the first sample on which line 38 raises (the exception
    ends [audio_loop]). *)
Fixpoint feed_rounded (rnd : Q → Q) (st : bounds) (samples : list Q)
    : list (option Z * Q * Q) :=
  match samples with
  | [] => []
  | s :: rest =>
      match normalize_rounded rnd s st.1 st.2 with
      | None => []
      | Some (val, min_beta, max_beta) =>
          (val, min_beta, max_beta) ::
          feed_rounded rnd (Some min_beta, Some max_beta) rest
      end
  end.

(** ** SpectralAnalyzer: lines 28-33 of [process_block] *)

(** What numpy computes that is not a rational function of its arguments:
    the cosine and the sine of [2 * pi * m / n], as [float64] values.  A
    complex number is its real and imaginary part. *)
Record numpy : Type := Numpy {
  cos2pi : nat → nat → Q;
  sin2pi : nat → nat → Q
}.

(** [np.hamming(M)]: the weights [0.54 - 0.46 * cos(2 * pi * n / (M - 1))]
    for [0 <= n < M], and a single 1 when [M = 1]. *)
Definition np_hamming (np : numpy) (M : nat) : list Q :=
  if decide (M = 1%nat) then [1]
  else map (λ n, (27 # 50) - (23 # 50) * cos2pi np n (M - 1)) (seq 0 M).

Definition cadd (z w : Q * Q) : Q * Q := (z.1 + w.1, z.2 + w.2).

(** [np.fft.rfft(a)] for [n] real points: the bins [0 .. n // 2] of the
    discrete Fourier transform, bin [k] being the sum of the
    [a[m] * exp(-2 * pi * i * m * k / n)].  (On an empty array [rfft] raises;
    a block of [WINDOW >= 1] samples is not empty.) *)
Definition np_fft_rfft (np : numpy) (a : list Q) : list (Q * Q) :=
  let n := length a in
  map (λ k, foldr cadd (0, 0)
              (imap (λ m x, (x * cos2pi np (m * k) n, - (x * sin2pi np (m * k) n))) a))
      (seq 0 (n / 2 + 1)).

(** [np.arange(n)] *)
Definition arange (n : nat) : list Z := map Z.of_nat (seq 0 n).

(** [np.abs(z) ** 2], the squared magnitude *)
Definition abs_sq (z : Q * Q) : Q := z.1 * z.1 + z.2 * z.2.

(** [a[mask]] for a boolean array [mask] as long as [a]. *)
Fixpoint mask_index {A : Type} (a : list A) (mask : list bool) : list A :=
  match a, mask with
  | x :: a, b :: mask => if b then x :: mask_index a mask else mask_index a mask
  | _, _ => []
  end.

(** [a.sum()] *)
Definition np_sum (a : list Q) : Q := foldr Qplus 0 a.

(** The frequencies [k] are quotients of integers; on a block of one sample
    the only one is [0 / 0], which is in the band neither as the [nan] of
    numpy nor as the [0] of [Q]. *)
Definition band_power (np : numpy) (block : list Q) : Q :=
  let win := np_hamming np (length block) in
  let X := np_fft_rfft np (zip_with Qmult block win) in
  let P := map abs_sq X in
  let k := map (λ i, inject_Z (i * FS) / inject_Z (2 * (Z.of_nat (length P) - 1)))
               (arange (length P)) in
  let beta_band := map (λ f, Qle_bool BETA_MIN_F f && Qle_bool f BETA_MAX_F) k in
  let beta_power := np_sum (mask_index P beta_band) in
  beta_power.

Definition process_block (np : numpy) (block : list Q) (min_b max_b : option Q)
    : option Z * Q * Q :=
  normalize (band_power np block) min_b max_b.

(** The analysis as the design document words it: the frequency of bin [k]
    out of [numBins], and whether a frequency lies in the band. *)
Definition bin_frequency (numBins k : nat) : Q :=
  inject_Z (Z.of_nat k) * inject_Z FS / (2 * (inject_Z (Z.of_nat numBins) - 1)).

Definition in_band (f : Q) : bool :=
  Qle_bool BETA_MIN_F f && Qle_bool f BETA_MAX_F.

(** The weight of sample [n] in a Hamming taper of [M] points. *)
Definition hamming_weight (np : numpy) (M n : nat) : Q :=
  if decide (M = 1%nat) then 1
  else (27 # 50) - (23 # 50) * cos2pi np n (M - 1).

(** Bin [k] of the transform of the [n] real points [x 0 .. x (n - 1)]. *)
Definition dft_bin (np : numpy) (x : nat → Q) (n k : nat) : Q * Q :=
  (np_sum (map (λ j, x j * cos2pi np (j * k) n) (seq 0 n)),
   np_sum (map (λ j, - (x j * sin2pi np (j * k) n)) (seq 0 n))).

Definition analyze_spec (np : numpy) (WINDOW : nat) (window : list Q) : Q :=
  let numBins := (WINDOW / 2 + 1)%nat in
  let tapered j := nth j window 0 * hamming_weight np WINDOW j in
  let power k := abs_sq (dft_bin np tapered WINDOW k) in
  np_sum (map (λ k, if in_band (bin_frequency numBins k) then power k else 0)
              (seq 0 numBins)).

(** An instance on which everything computes: the cosines and sines that
    are rational.  They are those a window of four samples needs, whose taper
    is [0.08, 0.77, 0.77, 0.08]; elsewhere the values are placeholders. *)
Definition numpy4 : numpy :=
  Numpy
    (λ m n, match n, (m mod n)%nat with
            | 2%nat, 1%nat => -1
            | 3%nat, 1%nat | 3%nat, 2%nat => - (1 # 2)
            | 4%nat, 1%nat | 4%nat, 3%nat => 0
            | 4%nat, 2%nat => -1
            | _, _ => 1
            end)
    (λ m n, match n, (m mod n)%nat with
            | 4%nat, 1%nat => 1
            | 4%nat, 3%nat => -1
            | _, _ => 0
            end).

(** A stream to run the loop on at the sizes the program has: chunks of
    [OVERLAP = 22050] samples, the first one a unit impulse on its first
    sample, the others silent. *)
Definition silent_chunk : list Q := replicate (Z.to_nat 22050%Z) 0.
Definition impulse_chunk : list Q := 1 :: replicate (Z.to_nat 22049%Z) 0.

Local Close Scope Q_scope.

(** ** WindowAssembler: lines 46-49 of [audio_loop] *)

Section Assembler.
Context {A : Type}.
Variable WINDOW : nat.

Definition OVERLAP : nat := (WINDOW / 2)%nat.

(** [buffer = np.concatenate((buffer, data[:, 0]))] *)
Definition append (buffer data : list A) : list A := buffer ++ data.

(** The inner [while len(buffer) >= WINDOW] loop: the blocks it cuts, oldest
    first, and the buffer it leaves.  [None] when [fuel] iterations do not
    reach the exit of the loop. *)
Fixpoint drain_loop (fuel : nat) (buffer : list A)
    : option (list (list A) * list A) :=
  match fuel with
  | O => None
  | S fuel =>
      if decide (WINDOW ≤ length buffer) then
        let block := take WINDOW buffer in
        let buffer := drop OVERLAP buffer in
        match drain_loop fuel buffer with
        | Some (blocks, rest) => Some (block :: blocks, rest)
        | None => None
        end
      else Some ([], buffer)
  end.

(** Every iteration but the last drops [OVERLAP] samples, so a loop that
    exits does so within [length buffer + 1] iterations; [None] is the loop
    that never exits ([OVERLAP = 0] on a full buffer). *)
Definition drain (buffer : list A) : option (list (list A) * list A) :=
  drain_loop (S (length buffer)) buffer.

(** The outer loop over the chunks read from the stream: for every chunk
    the blocks cut after appending it and the buffer left behind. *)
Fixpoint capture (buffer : list A) (chunks : list (list A))
    : option (list (list (list A) * list A)) :=
  match chunks with
  | [] => Some []
  | data :: chunks =>
      match drain (append buffer data) with
      | Some (blocks, buffer) =>
          match capture buffer chunks with
          | Some passes => Some ((blocks, buffer) :: passes)
          | None => None
          end
      | None => None
      end
  end.
End Assembler.

(** ** SubscriberRegistry and Broadcaster: lines 8-25 *)

(** A websocket connection object. *)
Definition conn : Type := positive.

(** The exception a set iterator raises when the set it walks has changed
    size since the iterator was created. *)
Inductive exn : Type := RuntimeError.

(** What the event loop's tasks share.  [clients] is the module-level set.
    [closed] holds the connections whose peer has gone: [send] on them raises
    [ConnectionClosed].  [sent] logs every call of [send], oldest first, with
    its outcome ([true]: the frame was accepted).  [arrivals] is the
    environment: its [k]-th entry lists the connections the server accepts
    during the [k]-th coming suspension of the capture task, which is
    suspended in [await c.send(msg)] and in [await asyncio.sleep(0)]. *)
Record world : Type := World {
  clients : gset conn;
  closed : gset conn;
  sent : list (conn * string * bool);
  arrivals : list (list conn)
}.

(** [handler(ws)] up to its own [await]: [clients.add(ws)]. *)
Definition handler_enter (ws : conn) (w : world) : world :=
  World ({[ws]} ∪ clients w) (closed w) (sent w) (arrivals w).

(** [handler(ws)] when its task ends: [clients.discard(ws)]. *)
Definition handler_exit (ws : conn) (w : world) : world :=
  World (clients w ∖ {[ws]}) (closed w) (sent w) (arrivals w).

(** A suspension of the capture task: the handlers of the connections
    accepted meanwhile run up to their own [await]. *)
Definition suspend (w : world) : world :=
  match arrivals w with
  | [] => w
  | new :: later =>
      foldr handler_enter (World (clients w) (closed w) (sent w) later) new
  end.

(** [await c.send(msg)]; [false] stands for [ConnectionClosed]. *)
Definition send (c : conn) (msg : string) (w : world) : bool * world :=
  let w := suspend w in
  let ok := bool_decide (c ∉ closed w) in
  (ok, World (clients w) (closed w) (sent w ++ [(c, msg, ok)]) (arrivals w)).

(** The [for c in clients] loop.  The iterator walks the live set: [todo] is
    what it has not yielded yet, [si_used] the size of the set when the
    iterator was made, which every [next] compares with the current size
    before anything else.  The only change the environment makes to the set
    while the loop is suspended is [clients.add] of a new connection, which
    changes the size; so as long as [next] does not raise, the members left
    to yield are those left at the start.  The order in which a set yields
    its members is not specified; here it is that of [elements]. *)
Fixpoint for_each_client (si_used : nat) (todo : list conn) (msg : string)
    (dead : gset conn) (w : world) : (exn + gset conn) * world :=
  if decide (size (clients w) = si_used) then
    match todo with
    | [] => (inr dead, w)
    | c :: todo =>
        let '(ok, w) := send c msg w in
        let dead := if ok then dead else {[c]} ∪ dead in
        for_each_client si_used todo msg dead w
    end
  else (inl RuntimeError, w).

Definition broadcast (msg : string) (w : world) : (exn + unit) * world :=
  let dead : gset conn := ∅ in
  match for_each_client (size (clients w)) (elements (clients w)) msg dead w with
  | (inr dead, w) =>
      (inr (), World (clients w ∖ dead) (closed w) (sent w) (arrivals w))
  | (inl e, w) => (inl e, w)
  end.

(** The server accepts no connection during the next [n] suspensions. *)
Definition undisturbed (n : nat) (arrivals : list (list conn)) : Prop :=
  Forall (λ new, new = []) (take n arrivals).

(** What a loop that reaches every member of [todo] appends to the [sent]
    log: one call of [send] per member, accepted unless the peer has gone. *)
Definition attempts (closed : gset conn) (msg : string) (todo : list conn)
    : list (conn * string * bool) :=
  map (λ c, (c, msg, bool_decide (c ∉ closed))) todo.

(** The [await broadcast(...)] calls of [audio_loop], one per message: no
    handler surrounds them, so an exception ends the loop. *)
Fixpoint broadcast_all (msgs : list string) (w : world) : (exn + unit) * world :=
  match msgs with
  | [] => (inr (), w)
  | msg :: msgs =>
      match broadcast msg w with
      | (inr _, w) => broadcast_all msgs w
      | (inl e, w) => (inl e, w)
      end
  end.

(** ** CaptureLoop: lines 41-53, [audio_loop] *)

(** [json.dumps({"value": val})] *)
Definition dquote : string :=
  String (Ascii.Ascii false true false false false true false false) EmptyString.

Definition json_dumps_value (val : Z) : string :=
  "{" +:+ dquote +:+ "value" +:+ dquote +:+ ": " +:+ pretty val +:+ "}".

(** An entry of the [sent] log that carries a frame of the wire format: [{"value": v}] with [v] from 0 to 100. *)
Definition value_frame (e : conn * string * bool) : Prop :=
  ∃ v : Z, (0 ≤ v ≤ 100)%Z ∧ e.1.2 = json_dumps_value v.

(** The variables of [audio_loop]: the module-level [buffer] and the bounds. *)
Record loop_state : Type := LoopState {
  buffer : list Q;
  min_beta : option Q;
  max_beta : option Q
}.

(** The inner [while] loop with its whole body; [None] when [fuel]
    iterations do not reach its exit. *)
Fixpoint window_loop (np : numpy) (WINDOW : nat) (fuel : nat) (st : loop_state)
    (w : world) : option ((exn + loop_state) * world) :=
  match fuel with
  | O => None
  | S fuel =>
      if decide (WINDOW ≤ length (buffer st)) then
        let block := take WINDOW (buffer st) in
        let buffer := drop (OVERLAP WINDOW) (buffer st) in
        let '(val, min_beta, max_beta) :=
          process_block np block (min_beta st) (max_beta st) in
        let st := LoopState buffer (Some min_beta) (Some max_beta) in
        match val with
        | Some val =>
            match broadcast (json_dumps_value val) w with
            | (inr _, w) => window_loop np WINDOW fuel st w
            | (inl e, w) => Some (inl e, w)
            end
        | None => window_loop np WINDOW fuel st w
        end
      else Some (inr st, w)
  end.

(** The outer [while True] loop over the chunks that [stream.read] returns,
    as many of them as [chunks] lists; an exception ends it. *)
Fixpoint audio_loop (np : numpy) (WINDOW : nat) (chunks : list (list Q))
    (st : loop_state) (w : world) : option ((exn + loop_state) * world) :=
  match chunks with
  | [] => Some (inr st, w)
  | data :: chunks =>
      let st := LoopState (append (buffer st) data) (min_beta st) (max_beta st) in
      match window_loop np WINDOW (S (length (buffer st))) st w with
      | Some (inr st, w) => audio_loop np WINDOW chunks st (suspend w)
      | other => other
      end
  end.

(** * Properties *)

Local Open Scope Q_scope.

(** ** Rounding *)

Lemma py_round_range (x : Q) (lo hi : Z) :
  inject_Z lo <= x → x <= inject_Z hi → (lo ≤ py_round x ≤ hi)%Z.
Proof.
  intros Hlo Hhi.
  assert (Hf1 : (lo ≤ Qfloor x)%Z).
  { rewrite <- (Qfloor_Z lo). by apply Qfloor_resp_le. }
  assert (Hf2 : (Qfloor x ≤ hi)%Z).
  { rewrite <- (Qfloor_Z hi). by apply Qfloor_resp_le. }
  unfold py_round.
  destruct (Qcompare_spec (x - inject_Z (Qfloor x)) (1 # 2)) as [He|Hl|Hg];
    [destruct (Z.even (Qfloor x))|..]; try lia.
  all: split; [lia|].
  all: destruct (Z.eq_dec (Qfloor x) hi) as [E|NE]; [|lia].
  all: exfalso; rewrite E in *; lra.
Qed.

Example py_round_ties :
  py_round (1 # 2) = 0%Z ∧ py_round (3 # 2) = 2%Z ∧ py_round (5 # 2) = 2%Z ∧
  py_round (249 # 10) = 25%Z ∧ py_round 100 = 100%Z.
Proof. by repeat split. Qed.

(** ** Comparisons *)

Lemma Qlt_bool_iff (x y : Q) : Qlt_bool x y = true ↔ x < y.
Proof.
  unfold Qlt_bool. rewrite negb_true_iff.
  destruct (Qle_bool y x) eqn:E; split; intros H; try done.
  - apply Qle_bool_iff in E. lra.
  - apply Qnot_le_lt. intros H'. apply Qle_bool_iff in H'. congruence.
Qed.

Lemma Qlt_bool_false (x y : Q) : Qlt_bool x y = false ↔ y <= x.
Proof.
  rewrite <- not_true_iff_false, Qlt_bool_iff. split; intros H; lra.
Qed.

Lemma py_min_cases (a b : Q) :
  (py_min a b = a ∧ a <= b) ∨ (py_min a b = b ∧ b < a).
Proof.
  unfold py_min. destruct (Qlt_bool b a) eqn:E.
  - right. by apply Qlt_bool_iff in E.
  - left. by apply Qlt_bool_false in E.
Qed.

Lemma py_max_cases (a b : Q) :
  (py_max a b = a ∧ b <= a) ∨ (py_max a b = b ∧ a < b).
Proof.
  unfold py_max. destruct (Qlt_bool a b) eqn:E.
  - right. by apply Qlt_bool_iff in E.
  - left. by apply Qlt_bool_false in E.
Qed.

(** ** One update of the bounds *)

Lemma normalize_min (s : Q) (a b : option Q) :
  min_seen (normalize s a b) = match a with None => s | Some m => py_min m s end.
Proof. unfold normalize. by destruct (Qeq_bool _ _). Qed.

Lemma normalize_max (s : Q) (a b : option Q) :
  max_seen (normalize s a b) = match b with None => s | Some m => py_max m s end.
Proof. unfold normalize. by destruct (Qeq_bool _ _). Qed.

Lemma normalize_value (s : Q) (a b : option Q) :
  let r := normalize s a b in
  value_of r =
    if Qeq_bool (max_seen r) (min_seen r) then None
    else Some (py_round ((s - min_seen r) / (max_seen r - min_seen r) * 100)).
Proof.
  unfold normalize. cbv zeta.
  destruct (Qeq_bool _ _) eqn:E; unfold value_of, min_seen, max_seen; simpl;
    by rewrite E.
Qed.

Lemma normalize_eta (s : Q) (a b : option Q) :
  normalize s a b =
    (value_of (normalize s a b), min_seen (normalize s a b), max_seen (normalize s a b)).
Proof. by destruct (normalize s a b) as [[??]?]. Qed.

Lemma normalize_brackets (s : Q) (a b : option Q) :
  min_seen (normalize s a b) <= s ∧ s <= max_seen (normalize s a b).
Proof.
  rewrite normalize_min, normalize_max. split.
  - destruct a as [m|]; [|lra]. destruct (py_min_cases m s) as [[-> ?]|[-> ?]]; lra.
  - destruct b as [m|]; [|lra]. destruct (py_max_cases m s) as [[-> ?]|[-> ?]]; lra.
Qed.

Lemma normalize_widens (s a b : Q) :
  min_seen (normalize s (Some a) (Some b)) <= a ∧
  b <= max_seen (normalize s (Some a) (Some b)).
Proof.
  rewrite normalize_min, normalize_max. split.
  - destruct (py_min_cases a s) as [[-> ?]|[-> ?]]; lra.
  - destruct (py_max_cases b s) as [[-> ?]|[-> ?]]; lra.
Qed.

(** ** Sequences of updates *)

Lemma feed_cons (st : bounds) (s : Q) (rest : list Q) :
  feed st (s :: rest) =
    normalize s st.1 st.2 ::
    feed (Some (min_seen (normalize s st.1 st.2)),
          Some (max_seen (normalize s st.1 st.2))) rest.
Proof. simpl. by destruct (normalize s st.1 st.2) as [[??]?]. Qed.

Lemma feed_length (st : bounds) (samples : list Q) :
  length (feed st samples) = length samples.
Proof.
  revert st. induction samples as [|s rest IH]; intros st; [done|].
  rewrite feed_cons. simpl. by rewrite IH.
Qed.

(** Every later result has bounds at least as wide as the current ones. *)
Lemma feed_widens (a b : Q) (samples : list Q) (k : nat) (r : option Z * Q * Q) :
  feed (Some a, Some b) samples !! k = Some r →
  min_seen r <= a ∧ b <= max_seen r.
Proof.
  revert a b k. induction samples as [|s rest IH]; intros a b k; [done|].
  rewrite feed_cons. simpl fst; simpl snd.
  pose proof (normalize_widens s a b) as [H1 H2].
  destruct k as [|k]; simpl.
  - intros [= <-]. done.
  - intros Hk. apply IH in Hk as [H3 H4]. split; lra.
Qed.

Lemma feed_monotone (st : bounds) (samples : list Q) (i j : nat)
    (ri rj : option Z * Q * Q) :
  i ≤ j →
  feed st samples !! i = Some ri → feed st samples !! j = Some rj →
  min_seen rj <= min_seen ri ∧ max_seen ri <= max_seen rj.
Proof.
  revert st i j. induction samples as [|s rest IH]; intros st i j Hij; [done|].
  rewrite feed_cons.
  destruct i as [|i], j as [|j]; simpl; try lia.
  - intros [= <-] [= <-]. split; lra.
  - intros [= <-] Hj. by apply feed_widens in Hj.
  - apply IH. lia.
Qed.

Lemma feed_brackets (st : bounds) (samples : list Q) (i : nat) (s : Q)
    (r : option Z * Q * Q) :
  samples !! i = Some s → feed st samples !! i = Some r →
  min_seen r <= s ∧ s <= max_seen r.
Proof.
  revert st i. induction samples as [|s0 rest IH]; intros st i; [done|].
  rewrite feed_cons. destruct i as [|i]; simpl.
  - intros [= <-] [= <-]. apply normalize_brackets.
  - apply IH.
Qed.

Lemma feed_value (st : bounds) (samples : list Q) (i : nat) (s : Q)
    (r : option Z * Q * Q) :
  samples !! i = Some s → feed st samples !! i = Some r →
  value_of r =
    if Qeq_bool (max_seen r) (min_seen r) then None
    else Some (py_round ((s - min_seen r) / (max_seen r - min_seen r) * 100)).
Proof.
  revert st i. induction samples as [|s0 rest IH]; intros st i; [done|].
  rewrite feed_cons. destruct i as [|i]; simpl.
  - intros [= <-] [= <-]. apply normalize_value.
  - apply IH.
Qed.

(** The bounds are the running minimum and maximum of the samples fed. *)
Lemma feed_extremes_from (a b : Q) (samples : list Q) (k : nat)
    (r : option Z * Q * Q) :
  feed (Some a, Some b) samples !! k = Some r →
  (min_seen r ∈ a :: take (S k) samples ∧
   Forall (Qle (min_seen r)) (a :: take (S k) samples)) ∧
  (max_seen r ∈ b :: take (S k) samples ∧
   Forall (λ x, x <= max_seen r) (b :: take (S k) samples)).
Proof.
  revert a b k. induction samples as [|s rest IH]; intros a b k; [done|].
  rewrite feed_cons. simpl fst; simpl snd.
  set (r0 := normalize s (Some a) (Some b)).
  assert (Hmin : min_seen r0 = py_min a s) by apply normalize_min.
  assert (Hmax : max_seen r0 = py_max b s) by apply normalize_max.
  destruct k as [|k]; simpl.
  - intros [= <-]. rewrite Hmin, Hmax. rewrite take_0.
    destruct (py_min_cases a s) as [[-> ?]|[-> ?]],
             (py_max_cases b s) as [[-> ?]|[-> ?]];
      repeat split; rewrite ?elem_of_cons; auto; repeat constructor; lra.
  - intros Hk. apply IH in Hk as [[H1 H2] [H3 H4]].
    rewrite Hmin in H1, H2. rewrite Hmax in H3, H4.
    inversion H2 as [|? ? Ha Hrest]; subst.
    inversion H4 as [|? ? Hb Hrest']; subst.
    repeat split.
    + destruct (py_min_cases a s) as [[E ?]|[E ?]]; rewrite E in H1;
        rewrite !elem_of_cons in *; tauto.
    + destruct (py_min_cases a s) as [[E ?]|[E ?]]; rewrite E in Ha;
        repeat constructor; try done; lra.
    + destruct (py_max_cases b s) as [[E ?]|[E ?]]; rewrite E in H3;
        rewrite !elem_of_cons in *; tauto.
    + destruct (py_max_cases b s) as [[E ?]|[E ?]]; rewrite E in Hb;
        repeat constructor; try done; lra.
Qed.

Lemma feed_extremes (samples : list Q) (i : nat) (r : option Z * Q * Q) :
  feed no_bounds samples !! i = Some r →
  (min_seen r ∈ take (S i) samples ∧ Forall (Qle (min_seen r)) (take (S i) samples)) ∧
  (max_seen r ∈ take (S i) samples ∧
   Forall (λ x, x <= max_seen r) (take (S i) samples)).
Proof.
  destruct samples as [|s rest]; [done|].
  rewrite feed_cons. simpl fst; simpl snd.
  destruct i as [|i]; simpl.
  - intros [= <-]. rewrite normalize_min, normalize_max, take_0.
    repeat split; rewrite ?elem_of_cons; auto; repeat constructor; lra.
  - rewrite normalize_min, normalize_max. apply feed_extremes_from.
Qed.

Lemma ratio_range (s mn mx : Q) :
  mn <= s → s <= mx → mn < mx →
  0 <= (s - mn) / (mx - mn) * 100 ∧ (s - mn) / (mx - mn) * 100 <= 100.
Proof.
  intros H1 H2 H3.
  assert (Hd : 0 < mx - mn) by lra.
  assert (Hq0 : 0 <= (s - mn) / (mx - mn)).
  { apply Qle_shift_div_l; [done|]. lra. }
  assert (Hq1 : (s - mn) / (mx - mn) <= 1).
  { apply Qle_shift_div_r; [done|]. lra. }
  split; lra.
Qed.

(** The range does not rest on the arithmetic being exact: it is the same
    when every operation is followed by a rounding that is monotone and
    leaves 0, 1 and 100 alone, as rounding to the nearest [float64] does. *)
Section Rounding.
Variable rnd : Q → Q.
Hypothesis rnd_mono : ∀ x y : Q, x <= y → rnd x <= rnd y.
Hypothesis rnd_0 : rnd 0 == 0.
Hypothesis rnd_1 : rnd 1 == 1.
Hypothesis rnd_100 : rnd 100 == 100.

Lemma rounded_ratio_range (s mn mx : Q) :
  mn <= s → s <= mx →
  (0 ≤ py_round (rnd (rnd (rnd (s - mn) / rnd (mx - mn)) * 100)) ≤ 100)%Z.
Proof.
  intros H1 H2.
  set (a := rnd (s - mn)). set (b := rnd (mx - mn)).
  assert (Ha : 0 <= a).
  { apply Qle_trans with (rnd 0); [lra|]. apply rnd_mono. lra. }
  assert (Hab : a <= b) by (apply rnd_mono; lra).
  assert (Hq : 0 <= a / b ∧ a / b <= 1).
  { destruct (Qlt_le_dec 0 b) as [Hb|Hb].
    - split; [apply Qle_shift_div_l|apply Qle_shift_div_r]; try done; lra.
    - assert (Hb0 : b == 0) by lra.
      assert (Hz : a / b == 0).
      { unfold Qdiv. rewrite Hb0. unfold Qinv. simpl. lra. }
      rewrite Hz. lra. }
  destruct Hq as [Hq0 Hq1].
  assert (Hr0 : 0 <= rnd (a / b)).
  { apply Qle_trans with (rnd 0); [lra|]. by apply rnd_mono. }
  assert (Hr1 : rnd (a / b) <= 1).
  { apply Qle_trans with (rnd 1); [|lra]. by apply rnd_mono. }
  apply py_round_range; unfold inject_Z.
  - apply Qle_trans with (rnd 0); [lra|]. apply rnd_mono. lra.
  - apply Qle_trans with (rnd 100); [|lra]. apply rnd_mono. lra.
Qed.
End Rounding.

Lemma value_some_iff (r : option Z * Q * Q) (s : Q) :
  min_seen r <= max_seen r →
  value_of r =
    (if Qeq_bool (max_seen r) (min_seen r) then None
     else Some (py_round ((s - min_seen r) / (max_seen r - min_seen r) * 100))) →
  is_Some (value_of r) ↔ min_seen r < max_seen r.
Proof.
  intros Hle ->. destruct (Qeq_bool _ _) eqn:E.
  - apply Qeq_bool_iff in E. split; [by intros [? [=]]|]. intros H. lra.
  - split; [|by eauto]. intros _.
    assert (¬ max_seen r == min_seen r).
    { intros H. apply Qeq_bool_iff in H. congruence. }
    lra.
Qed.

Lemma round_down_16_mono (x y : Q) : x <= y → round_down_16 x <= round_down_16 y.
Proof.
  intros H. unfold round_down_16, Qdiv. apply Qmult_le_compat_r; [|done].
  rewrite <- Zle_Qle. apply Qfloor_resp_le. lra.
Qed.

(** ** The rounded update *)


(** The exact update is the rounded one for the rounding that changes
    nothing. *)
Lemma normalize_rounded_exact (s : Q) (a b : option Q) :
  normalize_rounded (λ x, x) s a b = Some (normalize s a b).
Proof.
  unfold normalize_rounded, normalize. cbv zeta.
  set (mn := match a with None => s | Some m => py_min m s end).
  set (mx := match b with None => s | Some m => py_max m s end).
  destruct (Qeq_bool mx mn) eqn:E; [done|].
  destruct (Qeq_bool (mx - mn) 0) eqn:E0; [|done].
  apply Qeq_bool_iff in E0.
  assert (H : mx == mn) by lra.
  apply Qeq_bool_iff in H. congruence.
Qed.

Lemma feed_rounded_cons (rnd : Q → Q) (st : bounds) (s : Q) (rest : list Q) :
  feed_rounded rnd st (s :: rest) =
    match normalize_rounded rnd s st.1 st.2 with
    | None => []
    | Some r => r :: feed_rounded rnd (Some (min_seen r), Some (max_seen r)) rest
    end.
Proof. simpl. by destruct (normalize_rounded rnd s st.1 st.2) as [[[??]?]|]. Qed.



(** With the rounding that changes nothing the rounded run is the exact
    run. *)
Lemma feed_rounded_exact (st : bounds) (samples : list Q) :
  feed_rounded (λ x, x) st samples = feed st samples.
Proof.
  revert st. induction samples as [|s rest IH]; intros st; [done|].
  rewrite feed_rounded_cons, feed_cons, normalize_rounded_exact. by rewrite IH.
Qed.

(** The rounded run stops only where line 38 raises.  Where the difference
    of two distinct samples never rounds to zero (as with [float64], whose
    subtraction of two distinct floats is never zero) it returns a triple
    for every sample. *)
Lemma feed_rounded_length_from (rnd : Q → Q) (pool : list Q) (a b : Q)
    (samples : list Q) :
  (∀ x y : Q, x ∈ pool → y ∈ pool → rnd (x - y) == 0 → x == y) →
  a ∈ pool → b ∈ pool → samples ⊆ pool →
  length (feed_rounded rnd (Some a, Some b) samples) = length samples.
Proof.
  intros Hpool. revert a b.
  induction samples as [|s rest IH]; intros a b Ha Hb Hsub; [done|].
  assert (Hs : s ∈ pool) by (apply Hsub, list_elem_of_here).
  assert (Hrest : rest ⊆ pool).
  { intros x Hx. apply Hsub. by apply list_elem_of_further. }
  rewrite feed_rounded_cons. simpl fst; simpl snd.
  unfold normalize_rounded. cbv zeta.
  assert (Hmn : py_min a s ∈ pool).
  { by destruct (py_min_cases a s) as [[-> _]|[-> _]]. }
  assert (Hmx : py_max b s ∈ pool).
  { by destruct (py_max_cases b s) as [[-> _]|[-> _]]. }
  destruct (Qeq_bool (py_max b s) (py_min a s)) eqn:E.
  - unfold min_seen, max_seen. simpl. f_equal. by apply IH.
  - destruct (Qeq_bool (rnd (py_max b s - py_min a s)) 0) eqn:E0.
    + apply Qeq_bool_iff in E0. apply Hpool in E0; [|done..].
      apply Qeq_bool_iff in E0. congruence.
    + unfold min_seen, max_seen. simpl. f_equal. by apply IH.
Qed.

Lemma feed_rounded_length (rnd : Q → Q) (samples : list Q) :
  (∀ x y : Q, x ∈ samples → y ∈ samples → rnd (x - y) == 0 → x == y) →
  length (feed_rounded rnd no_bounds samples) = length samples.
Proof.
  intros Hpool. destruct samples as [|s rest]; [done|].
  rewrite feed_rounded_cons. simpl fst; simpl snd.
  unfold normalize_rounded. cbv zeta.
  assert (Qeq_bool s s = true) as -> by (by apply Qeq_bool_iff).
  unfold min_seen, max_seen. simpl. f_equal.
  apply (feed_rounded_length_from rnd (s :: rest)); try done.
  - apply list_elem_of_here.
  - apply list_elem_of_here.
  - intros x Hx. by apply list_elem_of_further.
Qed.

(** Rounding changes the value: with every result rounded down to a multiple
    of [1/16] the third of the samples 0, 1, 0.155 gives 12, and 16 without
    rounding. *)
Example feed_rounded_differs :
  feed_rounded round_down_16 no_bounds [0; 1; 31 # 200] !! 2%nat = Some (Some 12%Z, 0, 1) ∧
  feed no_bounds [0; 1; 31 # 200] !! 2%nat = Some (Some 16%Z, 0, 1).
Proof. by split. Qed.

(** ** Claims about the Normalizer *)



(** C3.  Whatever sequence of band-power samples is fed, the bounds returned
    by a later update are at least as wide as those returned by an earlier
    one ([min_seen] never increases, [max_seen] never decreases), and the
    bounds returned by an update enclose the sample of that update. *)
Theorem normalizer_bounds_invariant (samples : list Q) (i j : nat) (s : Q)
    (ri rj : option Z * Q * Q) :
  i ≤ j →
  samples !! j = Some s →
  feed no_bounds samples !! i = Some ri →
  feed no_bounds samples !! j = Some rj →
  (min_seen rj <= min_seen ri ∧ max_seen ri <= max_seen rj) ∧
  (min_seen rj <= s ∧ s <= max_seen rj).
Proof.
  intros Hij Hs Hi Hj. split.
  - by eapply feed_monotone.
  - by eapply feed_brackets.
Qed.

Lemma normalizer_bounds_invariant_witness :
  (1 <= 3 ∧ 3 <= 5) ∧ (1 <= 2 ∧ 2 <= 5).
Proof.
  exact (normalizer_bounds_invariant [3; 1; 5; 2] 0 3 2
           (None, 3, 3) (Some 25%Z, 1, 5)
           ltac:(lia) eq_refl eq_refl eq_refl).
Defined.

(** C4.  An update returns no value exactly when the updated bounds are
    equal.  The first sample ever observed becomes both bounds and yields no
    value, and so does every sample of a constant sequence. *)
Theorem normalizer_suppression :
  (∀ (s : Q) (a b : option Q),
     value_of (normalize s a b) = None ↔
     max_seen (normalize s a b) == min_seen (normalize s a b)) ∧
  (∀ s : Q, normalize s None None = (None, s, s)) ∧
  (∀ (s : Q) (n : nat),
     feed no_bounds (replicate n s) = replicate n (None, s, s)).
Proof.
  assert (Hrefl : ∀ s : Q, Qeq_bool s s = true).
  { intros s. by apply Qeq_bool_iff. }
  assert (Hfirst : ∀ s : Q, normalize s None None = (None, s, s)).
  { intros s. unfold normalize. by rewrite Hrefl. }
  assert (Hsame : ∀ s : Q, normalize s (Some s) (Some s) = (None, s, s)).
  { intros s. unfold normalize, py_min, py_max.
    assert (Qlt_bool s s = false) as -> by (apply Qlt_bool_false; lra).
    by rewrite Hrefl. }
  split; [|split; [done|]].
  - intros s a b. rewrite normalize_value. cbv zeta.
    destruct (Qeq_bool _ _) eqn:E.
    + split; [|done]. intros _. by apply Qeq_bool_iff.
    + split; [done|]. intros H. apply Qeq_bool_iff in H. congruence.
  - intros s [|n]; [done|].
    rewrite replicate_S, feed_cons. simpl fst; simpl snd. rewrite Hfirst.
    f_equal. unfold min_seen, max_seen. simpl.
    induction n as [|n IH]; [done|].
    rewrite replicate_S, feed_cons. simpl fst; simpl snd. rewrite Hsame.
    f_equal. exact IH.
Qed.

(** C10.  Once an update has returned a value, every later update of the same
    run returns a value as well: the bounds stay strictly apart. *)
Theorem normalizer_stays_defined (samples : list Q) (i j : nat) (v : Z)
    (ri : option Z * Q * Q) :
  i ≤ j → (j < length samples)%nat →
  feed no_bounds samples !! i = Some ri →
  value_of ri = Some v →
  ∃ (rj : option Z * Q * Q) (v' : Z),
    feed no_bounds samples !! j = Some rj ∧ value_of rj = Some v' ∧
    min_seen rj < max_seen rj.
Proof.
  intros Hij Hj Hi Hv.
  destruct (lookup_lt_is_Some_2 (feed no_bounds samples) j) as [rj Hrj].
  { by rewrite feed_length. }
  destruct (lookup_lt_is_Some_2 samples i) as [si Hsi]; [lia|].
  destruct (lookup_lt_is_Some_2 samples j) as [sj Hsj]; [done|].
  pose proof (feed_brackets _ _ _ _ _ Hsi Hi) as [Hi1 Hi2].
  pose proof (feed_brackets _ _ _ _ _ Hsj Hrj) as [Hj1 Hj2].
  pose proof (feed_monotone _ _ _ _ _ _ Hij Hi Hrj) as [Hm1 Hm2].
  assert (Hlt : min_seen ri < max_seen ri).
  { eapply (value_some_iff ri si); [lra|by eapply feed_value|by eauto]. }
  assert (Hsome : is_Some (value_of rj)).
  { eapply (value_some_iff rj sj); [lra|by eapply feed_value|lra]. }
  destruct Hsome as [v' Hv']. exists rj, v'. repeat split; [done..|lra].
Qed.

Lemma normalizer_stays_defined_witness :
  ∃ (rj : option Z * Q * Q) (v' : Z),
    feed no_bounds [3; 1; 5; 1] !! 3%nat = Some rj ∧ value_of rj = Some v' ∧
    min_seen rj < max_seen rj.
Proof.
  exact (normalizer_stays_defined [3; 1; 5; 1] 1 3 0%Z (Some 0%Z, 1, 3)
           ltac:(lia) ltac:(simpl; lia) eq_refl eq_refl).
Defined.

(** ** The sliding buffer *)

Local Close Scope Q_scope.

Section AssemblerFacts.
Context {A : Type}.
Variable WINDOW : nat.

Lemma OVERLAP_pos : 2 ≤ WINDOW → 1 ≤ OVERLAP WINDOW.
Proof. intros H. unfold OVERLAP. apply Nat.div_str_pos. lia. Qed.

Lemma OVERLAP_le : OVERLAP WINDOW ≤ WINDOW.
Proof. unfold OVERLAP. apply Nat.Div0.div_le_upper_bound. lia. Qed.

(** More fuel does not change the result of a loop that has finished. *)
Lemma drain_loop_more_fuel (fuel fuel' : nat) (buffer : list A)
    (res : list (list A) * list A) :
  fuel ≤ fuel' →
  drain_loop WINDOW fuel buffer = Some res →
  drain_loop WINDOW fuel' buffer = Some res.
Proof.
  revert fuel' buffer res.
  induction fuel as [|fuel IH]; intros fuel' buffer res Hle; [done|].
  destruct fuel' as [|fuel']; [lia|]. simpl.
  destruct (decide (WINDOW ≤ length buffer)); [|done].
  destruct (drain_loop WINDOW fuel _) as [[blocks rest]|] eqn:E; [|done].
  intros [= <-]. by rewrite (IH fuel' _ _ ltac:(lia) E).
Qed.

(** The loop exits only on a buffer shorter than a window. *)
Lemma drain_loop_exit (fuel : nat) (buffer : list A)
    (blocks : list (list A)) (rest : list A) :
  drain_loop WINDOW fuel buffer = Some (blocks, rest) →
  length rest < WINDOW.
Proof.
  revert buffer blocks. induction fuel as [|fuel IH]; intros buffer blocks; [done|].
  simpl. destruct (decide (WINDOW ≤ length buffer)).
  - destruct (drain_loop WINDOW fuel _) as [[bs r]|] eqn:E; [|done].
    intros [= <- <-]. by eapply IH.
  - intros [= <- <-]. lia.
Qed.

(** The closed form of what the loop cuts: block [i] starts [i * OVERLAP]
    samples into the buffer and is a full window. *)
Lemma drain_loop_blocks (fuel : nat) (buffer : list A)
    (blocks : list (list A)) (rest : list A) :
  drain_loop WINDOW fuel buffer = Some (blocks, rest) →
  (∀ i, i < length blocks →
     blocks !! i = Some (take WINDOW (drop (i * OVERLAP WINDOW) buffer)) ∧
     WINDOW ≤ length (drop (i * OVERLAP WINDOW) buffer)) ∧
  rest = drop (length blocks * OVERLAP WINDOW) buffer.
Proof.
  revert buffer blocks. induction fuel as [|fuel IH]; intros buffer blocks; [done|].
  simpl. destruct (decide (WINDOW ≤ length buffer)) as [Hfull|Hshort].
  - destruct (drain_loop WINDOW fuel _) as [[blocks' rest']|] eqn:E; [|done].
    intros [= <- <-]. destruct (IH _ _ E) as [Hblocks ->]. split.
    + intros [|i] Hi; simpl in *.
      * by rewrite drop_0.
      * destruct (Hblocks i ltac:(lia)) as [H1 H2].
        by rewrite drop_drop in H1, H2.
    + simpl. by rewrite drop_drop.
  - intros [= <- <-]. split; [simpl; lia|]. by rewrite drop_0.
Qed.

(** With a positive overlap the loop exits within [length buffer + 1]
    iterations. *)
Lemma drain_loop_total (fuel : nat) (buffer : list A) :
  1 ≤ OVERLAP WINDOW → length buffer < fuel →
  is_Some (drain_loop WINDOW fuel buffer).
Proof.
  intros Hpos. revert buffer.
  induction fuel as [|fuel IH]; intros buffer Hlen; [lia|].
  simpl. destruct (decide (WINDOW ≤ length buffer)) as [Hfull|Hshort]; [|by eexists].
  destruct (IH (drop (OVERLAP WINDOW) buffer)) as [[blocks rest] ->]; [|by eexists].
  rewrite length_drop. pose proof OVERLAP_le. lia.
Qed.

(** With no overlap the loop never leaves a full buffer. *)
Lemma drain_loop_stuck (fuel : nat) (buffer : list A) :
  OVERLAP WINDOW = 0 → WINDOW ≤ length buffer →
  drain_loop WINDOW fuel buffer = None.
Proof.
  intros H0 Hfull. induction fuel as [|fuel IH]; [done|].
  simpl. rewrite decide_True by done. by rewrite H0, drop_0, IH.
Qed.

(** So the fuel of [drain] is enough: a loop that exits at all exits within
    that many iterations. *)
Lemma drain_complete (fuel : nat) (buffer : list A) (res : list (list A) * list A) :
  drain_loop WINDOW fuel buffer = Some res → drain WINDOW buffer = Some res.
Proof.
  intros Hres. unfold drain.
  destruct (decide (OVERLAP WINDOW = 0)) as [H0|Hpos].
  - destruct (decide (WINDOW ≤ length buffer)) as [Hfull|Hshort].
    + by rewrite drain_loop_stuck in Hres.
    + destruct fuel as [|fuel]; [done|]. simpl in *.
      by rewrite decide_False in * by done.
  - destruct (drain_loop_total (S (length buffer)) buffer) as [res' Hres'];
      [lia..|].
    rewrite Hres'. f_equal.
    pose proof (drain_loop_more_fuel fuel (fuel + S (length buffer)) _ _
                  ltac:(lia) Hres) as H1.
    pose proof (drain_loop_more_fuel (S (length buffer)) (fuel + S (length buffer))
                  _ _ ltac:(lia) Hres') as H2.
    congruence.
Qed.

Lemma capture_length (buffer : list A) (chunks : list (list A))
    (passes : list (list (list A) * list A)) :
  capture WINDOW buffer chunks = Some passes → length passes = length chunks.
Proof.
  revert buffer passes. induction chunks as [|data chunks IH]; intros buffer passes.
  - by intros [= <-].
  - simpl. destruct (drain _ _) as [[blocks rest]|]; [|done].
    destruct (capture _ _ _) as [ps|] eqn:E; [|done].
    intros [= <-]. simpl. f_equal. by eapply IH.
Qed.

Lemma capture_exit (buffer : list A) (chunks : list (list A))
    (passes : list (list (list A) * list A)) :
  capture WINDOW buffer chunks = Some passes →
  Forall (λ pass, length pass.2 < WINDOW) passes.
Proof.
  revert buffer passes. induction chunks as [|data chunks IH]; intros buffer passes.
  - intros [= <-]. constructor.
  - simpl. destruct (drain _ _) as [[blocks rest]|] eqn:D; [|done].
    destruct (capture _ _ _) as [ps|] eqn:E; [|done].
    intros [= <-]. constructor; [|by eapply IH].
    simpl. by eapply drain_loop_exit.
Qed.

Lemma capture_total (buffer : list A) (chunks : list (list A)) :
  2 ≤ WINDOW → is_Some (capture WINDOW buffer chunks).
Proof.
  intros HW. revert buffer. induction chunks as [|data chunks IH]; intros buffer.
  - by eexists.
  - simpl.
    destruct (drain_loop_total (S (length (append buffer data)))
                (append buffer data) (OVERLAP_pos HW) ltac:(lia))
      as [[blocks rest] Hd].
    unfold drain. rewrite Hd.
    destruct (IH rest) as [ps ->]. by eexists.
Qed.
End AssemblerFacts.

(** ** Claims about the WindowAssembler *)

(** C2.  As long as the buffer holds a full window the drain loop cuts
    [buffer[0:WINDOW]] and goes on with [buffer[OVERLAP:]]: the [i]-th block
    it emits is the full window that starts [i * OVERLAP] samples into the
    buffer, so blocks come out oldest first, and what it leaves is the buffer
    without the first [OVERLAP] samples of every block, shorter than a
    window.  With a window of at least two samples the loop terminates on
    every buffer.  With [WINDOW = 4] and the chunks [1,2], [3,4], [5,6]: no
    block and buffer [1,2]; then block [1,2,3,4] and buffer [3,4]; then block
    [3,4,5,6] and buffer [5,6]. *)
Theorem drain_windows :
  (∀ (A : Type) (WINDOW : nat) (buffer : list A)
     (blocks : list (list A)) (rest : list A),
     drain WINDOW buffer = Some (blocks, rest) →
     (∀ i, i < length blocks →
        blocks !! i = Some (take WINDOW (drop (i * OVERLAP WINDOW) buffer)) ∧
        WINDOW ≤ length (drop (i * OVERLAP WINDOW) buffer)) ∧
     rest = drop (length blocks * OVERLAP WINDOW) buffer ∧
     length rest < WINDOW) ∧
  (∀ (A : Type) (WINDOW : nat) (buffer : list A),
     2 ≤ WINDOW → is_Some (drain WINDOW buffer)) ∧
  (OVERLAP 4 = 2 ∧
   append [] [1; 2] = [1; 2] ∧
   drain 4 [1; 2] = Some ([], [1; 2]) ∧
   append [1; 2] [3; 4] = [1; 2; 3; 4] ∧
   drain 4 [1; 2; 3; 4] = Some ([[1; 2; 3; 4]], [3; 4]) ∧
   append [3; 4] [5; 6] = [3; 4; 5; 6] ∧
   drain 4 [3; 4; 5; 6] = Some ([[3; 4; 5; 6]], [5; 6]) ∧
   capture 4 [] [[1; 2]; [3; 4]; [5; 6]] =
     Some [([], [1; 2]); ([[1; 2; 3; 4]], [3; 4]); ([[3; 4; 5; 6]], [5; 6])]).
Proof.
  split; [|split; [|by repeat split]].
  - intros A WINDOW buffer blocks rest Hd.
    destruct (drain_loop_blocks WINDOW _ _ _ _ Hd) as [Hblocks Hrest].
    split; [done|]. split; [done|]. by eapply drain_loop_exit.
  - intros A WINDOW buffer HW.
    apply drain_loop_total; [by apply OVERLAP_pos|lia].
Qed.

Lemma drain_windows_witness :
  ((∀ i, i < 2 →
      [[1; 2; 3; 4]; [3; 4; 5; 6]] !! i =
        Some (take 4 (drop (i * OVERLAP 4) [1; 2; 3; 4; 5; 6; 7])) ∧
      4 ≤ length (drop (i * OVERLAP 4) [1; 2; 3; 4; 5; 6; 7])) ∧
   [5; 6; 7] = drop (2 * OVERLAP 4) [1; 2; 3; 4; 5; 6; 7] ∧
   length [5; 6; 7] < 4) ∧
  is_Some (drain 4 [1; 2; 3; 4; 5; 6; 7]).
Proof.
  split.
  - exact (proj1 drain_windows nat 4 [1; 2; 3; 4; 5; 6; 7]
             [[1; 2; 3; 4]; [3; 4; 5; 6]] [5; 6; 7] eq_refl).
  - exact (proj1 (proj2 drain_windows) nat 4 [1; 2; 3; 4; 5; 6; 7] ltac:(lia)).
Defined.

(** C9.  Whatever chunks are appended, the buffer left by an extraction pass
    that has run to completion is strictly shorter than a window; and with a
    window of at least two samples every pass does run to completion. *)
Theorem buffer_below_window (A : Type) (WINDOW : nat) (chunks : list (list A)) :
  (∀ passes : list (list (list A) * list A),
     capture WINDOW [] chunks = Some passes →
     length passes = length chunks ∧
     Forall (λ pass, length pass.2 < WINDOW) passes) ∧
  (2 ≤ WINDOW → is_Some (capture WINDOW [] chunks)).
Proof.
  split.
  - intros passes H. split; [by eapply capture_length|by eapply capture_exit].
  - apply capture_total.
Qed.

Lemma buffer_below_window_witness :
  Forall (λ pass : list (list nat) * list nat, length pass.2 < 4)
    [([], [1; 2]); ([[1; 2; 3; 4]], [3; 4]); ([[3; 4; 5; 6]], [5; 6])] ∧
  is_Some (capture 4 [] [[1; 2]; [3; 4]; [5; 6]]).
Proof.
  pose proof (buffer_below_window nat 4 [[1; 2]; [3; 4]; [5; 6]]) as [H1 H2].
  split.
  - exact (proj2 (H1 _ eq_refl)).
  - exact (H2 ltac:(lia)).
Defined.

(** ** The broadcaster *)

(** A suspension during which no connection is accepted changes nothing
    but the schedule. *)
Lemma suspend_undisturbed (cl cls : gset conn) (log : list (conn * string * bool))
    (arr : list (list conn)) :
  undisturbed 1 arr →
  suspend (World cl cls log arr) = World cl cls log (drop 1 arr).
Proof.
  unfold undisturbed. destruct arr as [|new later]; [done|].
  rewrite firstn_cons, take_0. intros H. by inversion H; subst.
Qed.

Lemma undisturbed_S (n : nat) (arr : list (list conn)) :
  undisturbed (S n) arr → undisturbed 1 arr ∧ undisturbed n (drop 1 arr).
Proof.
  unfold undisturbed. destruct arr as [|new later].
  { intros _. simpl. rewrite take_nil. split; constructor. }
  rewrite !firstn_cons, take_0. simpl. intros H. inversion H; subst.
  split; [by repeat constructor|done].
Qed.

(** With no connection arriving meanwhile, the loop reaches every member it
    was to yield, whatever the outcome of the sends before, and leaves the
    registry alone. *)
Lemma for_each_client_undisturbed (cl cls : gset conn)
    (log : list (conn * string * bool)) (arr : list (list conn))
    (msg : string) (todo : list conn) (dead : gset conn) :
  undisturbed (length todo) arr →
  ∃ dead' : gset conn,
    for_each_client (size cl) todo msg dead (World cl cls log arr) =
      (inr dead',
       World cl cls (log ++ attempts cls msg todo) (drop (length todo) arr)) ∧
    ∀ c, c ∈ dead' ↔ c ∈ dead ∨ (c ∈ todo ∧ c ∈ cls).
Proof.
  revert log arr dead. induction todo as [|c todo IH]; intros log arr dead Harr.
  - exists dead. simpl. rewrite decide_True by done. rewrite app_nil_r, drop_0.
    split; [done|]. intros c. rewrite elem_of_nil. tauto.
  - apply undisturbed_S in Harr as [H1 Hn].
    cbn [for_each_client clients]. rewrite decide_True by done.
    unfold send. rewrite (suspend_undisturbed _ _ _ _ H1). cbn [clients closed sent arrivals].
    destruct (IH (log ++ [(c, msg, bool_decide (c ∉ cls))]) (drop 1 arr)
                (if bool_decide (c ∉ cls) then dead else {[c]} ∪ dead) Hn)
      as (dead' & -> & Hdead).
    exists dead'. rewrite <- app_assoc, drop_drop. split; [done|].
    intros c'. rewrite Hdead, elem_of_cons.
    case_bool_decide as Hc.
    + split; [tauto|]. intros [?|[[->|?] ?]]; tauto.
    + rewrite elem_of_union, elem_of_singleton.
      split; [intros [[->|?]|?]; tauto|]. intros [?|[[->|?] ?]]; tauto.
Qed.

Lemma broadcast_undisturbed (cl cls : gset conn) (log : list (conn * string * bool))
    (arr : list (list conn)) (msg : string) :
  undisturbed (size cl) arr →
  broadcast msg (World cl cls log arr) =
    (inr (),
     World (cl ∖ cls) cls (log ++ attempts cls msg (elements cl))
       (drop (size cl) arr)).
Proof.
  intros Harr. unfold broadcast. cbn [clients].
  destruct (for_each_client_undisturbed cl cls log arr msg (elements cl) ∅ Harr)
    as (dead' & -> & Hdead).
  cbn [clients closed sent arrivals]. do 2 f_equal. apply set_eq. intros c.
  rewrite !elem_of_difference, Hdead, elem_of_elements, elem_of_empty. tauto.
Qed.

Lemma broadcast_quiet (cl cls : gset conn) (log : list (conn * string * bool))
    (msg : string) :
  broadcast msg (World cl cls log []) =
    (inr (), World (cl ∖ cls) cls (log ++ attempts cls msg (elements cl)) []).
Proof.
  rewrite broadcast_undisturbed; [by rewrite drop_nil|].
  unfold undisturbed. by rewrite take_nil.
Qed.

(** A suspension registers exactly the connections scheduled for it. *)
Lemma foldr_handler_enter (new : list conn) (w : world) :
  foldr handler_enter w new =
    World (list_to_set new ∪ clients w) (closed w) (sent w) (arrivals w).
Proof.
  induction new as [|ws new IH]; simpl.
  - destruct w. simpl. f_equal. apply set_eq. intros c.
    rewrite elem_of_union, elem_of_empty. tauto.
  - rewrite IH. unfold handler_enter. simpl. f_equal.
    apply set_eq. intros c. rewrite !elem_of_union. tauto.
Qed.

(** A connection accepted while the first [send] of a broadcast is suspended
    changes the size of the set under the iterator: the broadcast ends in
    [RuntimeError], after that one [send] and before any removal. *)
Lemma broadcast_interrupted (cl cls : gset conn) (log : list (conn * string * bool))
    (msg : string) (new : list conn) (later : list (list conn)) (ws : conn) :
  cl ≠ ∅ → ws ∈ new → ws ∉ cl →
  ∃ c, c ∈ cl ∧
    broadcast msg (World cl cls log (new :: later)) =
      (inl RuntimeError,
       World (list_to_set new ∪ cl) cls
         (log ++ [(c, msg, bool_decide (c ∉ cls))]) later).
Proof.
  intros Hne Hws Hfresh. unfold broadcast. simpl.
  destruct (elements cl) as [|c todo] eqn:E.
  { apply elements_empty_inv in E. by apply leibniz_equiv in E. }
  exists c. split.
  { apply elem_of_elements. rewrite E. apply list_elem_of_here. }
  simpl. rewrite decide_True by done.
  unfold send, suspend. simpl. rewrite foldr_handler_enter. simpl.
  assert (Hsize : size (list_to_set new ∪ cl : gset conn) ≠ size cl).
  { assert (size cl < size (list_to_set new ∪ cl : gset conn)); [|lia].
    apply subset_size. split; [apply union_subseteq_r|].
    intros Hsub. apply Hfresh, Hsub, elem_of_union_l.
    by apply elem_of_list_to_set. }
  destruct todo as [|c' todo]; simpl; by rewrite decide_False.
Qed.

(** A connection registered between two broadcasts is served by the next. *)
Lemma joiner_between_broadcasts (cl cls : gset conn)
    (log : list (conn * string * bool)) (msg : string) (ws : conn) :
  ws ∉ cls →
  ∃ w' : world,
    broadcast msg (handler_enter ws (World cl cls log [])) = (inr (), w') ∧
    (ws, msg, true) ∈ sent w' ∧ ws ∈ clients w'.
Proof.
  intros Hopen. unfold handler_enter. simpl. rewrite broadcast_quiet.
  eexists. split; [done|]. simpl. split.
  - apply elem_of_app. right. unfold attempts. apply list_elem_of_fmap.
    exists ws. rewrite bool_decide_eq_true_2 by done. split; [done|].
    apply elem_of_elements, elem_of_union_l. by apply elem_of_singleton.
  - apply elem_of_difference. split; [|done].
    apply elem_of_union_l. by apply elem_of_singleton.
Qed.

(** ** Claims about the Broadcaster *)

(** C6.  A broadcast does not reach every member of the registry whatever
    happens while it runs.  With three subscribers of which one has gone,
    and a fourth connection accepted while the first [send] is suspended,
    the broadcast ends in [RuntimeError] after that one [send]: the two
    other members are never tried, and the member that has gone is still in
    the registry. *)
Theorem broadcast_fan_out_cut_short :
  broadcast "m" (World {[1; 2; 3]} {[2]} [] [[4]])%positive =
    (inl RuntimeError,
     World {[1; 2; 3; 4]} {[2]} [(3, "m", true)] [])%positive.
Proof. by vm_compute. Qed.

(** C7.  The broadcast walks the live set, not a copy of it.  With one
    subscriber registered and a second connection accepted while the send to
    the first is suspended, the broadcast ends in [RuntimeError]; the
    exception ends the loop that publishes, so the second connection is sent
    neither this message nor the next. *)
Theorem broadcast_late_joiner :
  let w := World {[1%positive]} ∅ [] [[2%positive]] in
  let w' := World {[1%positive; 2%positive]} ∅ [(1%positive, "m1", true)] [] in
  suspend w = handler_enter 2%positive (World {[1%positive]} ∅ [] []) ∧
  broadcast "m1" w = (inl RuntimeError, w') ∧
  broadcast_all ["m1"; "m2"] w = (inl RuntimeError, w').
Proof. by vm_compute. Qed.

(** ** The spectral analysis *)

Local Open Scope Q_scope.

(** Summing the entries picked by a mask that is computed from the indices
    is summing, over all indices, the entries whose index passes. *)
Lemma np_sum_mask_index {A : Type} (f : A → Q) (d : A) (g : nat → bool)
    (l : list A) (start : nat) :
  np_sum (mask_index (map f l) (map g (seq start (length l)))) ==
  np_sum (map (λ k, if g (start + k)%nat then f (nth k l d) else 0)
              (seq 0 (length l))).
Proof.
  revert start. induction l as [|x l IH]; intros start; [reflexivity|].
  cbn [length seq map mask_index].
  rewrite <- (seq_shift (length l) 0), map_map. cbn [np_sum foldr].
  rewrite Nat.add_0_r.
  assert (Hrest :
    map (λ k, if g (start + S k)%nat then f (nth (S k) (x :: l) d) else 0)
        (seq 0 (length l)) =
    map (λ k, if g (S start + k)%nat then f (nth k l d) else 0)
        (seq 0 (length l))).
  { apply map_ext. intros k. by rewrite Nat.add_succ_r. }
  rewrite Hrest. clear Hrest.
  destruct (g start); cbn [np_sum foldr nth]; fold (np_sum);
    change (foldr Qplus 0) with np_sum; rewrite IH; lra.
Qed.

(** The frequency the code computes for bin [k] is the one of the document. *)
Lemma bin_frequency_code (n k : nat) :
  inject_Z (Z.of_nat k * FS) / inject_Z (2 * (Z.of_nat n - 1)) ==
  bin_frequency n k.
Proof.
  unfold bin_frequency.
  rewrite inject_Z_mult.
  assert (inject_Z (2 * (Z.of_nat n - 1)) == 2 * (inject_Z (Z.of_nat n) - 1)) as ->.
  { unfold Qeq, inject_Z. simpl. lia. }
  reflexivity.
Qed.

Lemma in_band_comp (f f' : Q) : f == f' → in_band f = in_band f'.
Proof. intros H. unfold in_band. by rewrite H. Qed.

Lemma in_band_iff (f : Q) : in_band f = true ↔ BETA_MIN_F <= f ∧ f <= BETA_MAX_F.
Proof. unfold in_band. by rewrite andb_true_iff, !Qle_bool_iff. Qed.

(** The arrays of numpy, entry by entry. *)
Lemma nth_map_seq {B : Type} (F : nat → B) (d : B) (n k : nat) :
  (k < n)%nat → nth k (map F (seq 0 n)) d = F k.
Proof.
  intros Hk. rewrite (nth_indep _ d (F 0%nat)) by (by rewrite length_map, length_seq).
  by rewrite map_nth, seq_nth.
Qed.

Lemma length_np_hamming (np : numpy) (M : nat) : length (np_hamming np M) = M.
Proof.
  unfold np_hamming. destruct (decide (M = 1%nat)) as [->|]; [done|].
  by rewrite length_map, length_seq.
Qed.

Lemma nth_np_hamming (np : numpy) (M n : nat) :
  (n < M)%nat → nth n (np_hamming np M) 0 = hamming_weight np M n.
Proof.
  intros Hn. unfold np_hamming, hamming_weight.
  destruct (decide (M = 1%nat)) as [->|].
  - by replace n with 0%nat by lia.
  - by rewrite nth_map_seq.
Qed.

Lemma length_np_fft_rfft (np : numpy) (a : list Q) :
  length (np_fft_rfft np a) = (length a / 2 + 1)%nat.
Proof. unfold np_fft_rfft. by rewrite length_map, length_seq. Qed.

Lemma foldr_cadd_imap (f : nat → Q → Q * Q) (a : list Q) :
  foldr cadd (0, 0) (imap f a) =
    (np_sum (map (λ j, (f j (nth j a 0)).1) (seq 0 (length a))),
     np_sum (map (λ j, (f j (nth j a 0)).2) (seq 0 (length a)))).
Proof.
  revert f. induction a as [|x a IH]; intros f; [done|].
  rewrite imap_cons. cbn [foldr length seq map np_sum].
  rewrite IH, <- (seq_shift (length a) 0), !map_map. done.
Qed.

Lemma nth_np_fft_rfft (np : numpy) (a : list Q) (k : nat) :
  (k < length a / 2 + 1)%nat →
  nth k (np_fft_rfft np a) (0, 0) = dft_bin np (λ j, nth j a 0) (length a) k.
Proof.
  intros Hk. unfold np_fft_rfft. cbv zeta. rewrite nth_map_seq by done.
  by rewrite foldr_cadd_imap.
Qed.

Lemma nth_zip_with_Qmult (l k : list Q) (j : nat) :
  (j < length l)%nat → (j < length k)%nat →
  nth j (zip_with Qmult l k) 0 = nth j l 0 * nth j k 0.
Proof.
  revert k j. induction l as [|x l IH]; intros [|y k] [|j]; simpl; try lia; [done|].
  intros. apply IH; lia.
Qed.

(** A bin depends on the points below [n] only. *)
Lemma dft_bin_ext (np : numpy) (x y : nat → Q) (n k : nat) :
  (∀ j, (j < n)%nat → x j = y j) → dft_bin np x n k = dft_bin np y n k.
Proof.
  intros Hxy. unfold dft_bin. f_equal; f_equal; apply map_ext_in; intros j Hj;
    apply in_seq in Hj; rewrite Hxy; done || lia.
Qed.

(** The bins of a tapered block are those of the pointwise product. *)
Lemma tapered_bin (np : numpy) (block : list Q) (k : nat) :
  (k < length block / 2 + 1)%nat →
  nth k (np_fft_rfft np (zip_with Qmult block (np_hamming np (length block)))) (0, 0) =
    dft_bin np (λ j, nth j block 0 * hamming_weight np (length block) j)
      (length block) k.
Proof.
  intros Hk.
  assert (Hlen : length (zip_with Qmult block (np_hamming np (length block))) =
                 length block).
  { apply length_zip_with_l_eq. by rewrite length_np_hamming. }
  rewrite nth_np_fft_rfft by (by rewrite Hlen). rewrite Hlen.
  apply dft_bin_ext. intros j Hj.
  rewrite nth_zip_with_Qmult by (by rewrite ?length_np_hamming).
  by rewrite nth_np_hamming.
Qed.

(** At the deployed sizes ([WINDOW = FS = 44100], hence 22051 bins) bin [k]
    has frequency [k] Hz and the band is made of the bins 12 to 30. *)
Lemma deployed_band (k : nat) :
  bin_frequency (Z.to_nat 22051) k == inject_Z (Z.of_nat k) ∧
  (in_band (bin_frequency (Z.to_nat 22051) k) = true ↔ (12 ≤ k ≤ 30)%nat).
Proof.
  assert (Hf : bin_frequency (Z.to_nat 22051) k == inject_Z (Z.of_nat k)).
  { unfold bin_frequency, FS. rewrite Z2Nat.id by lia.
    unfold inject_Z at 2 3. field. }
  split; [done|].
  rewrite (in_band_comp _ _ Hf), in_band_iff. unfold BETA_MIN_F, BETA_MAX_F.
  rewrite <- (Zle_Qle 12), <- (Zle_Qle _ 30). lia.
Qed.

Example rfft4 :
  map Qred (np_hamming numpy4 4) = [2 # 25; 77 # 100; 77 # 100; 2 # 25] ∧
  np_fft_rfft numpy4 [1; 2; 3; 4] = [(10, 0); (-2, 2); (-2, 0)].
Proof. by vm_compute. Qed.

(** ** Claim about the SpectralAnalyzer *)



(** ** The capture loop *)

Local Close Scope Q_scope.

Lemma feed_app (st : bounds) (l1 l2 : list Q) :
  feed st (l1 ++ l2) = feed st l1 ++ feed (bounds_after st l1) l2.
Proof.
  revert st. induction l1 as [|s l1 IH]; intros st; [done|].
  rewrite <- app_comm_cons, !feed_cons, IH. done.
Qed.

Lemma bounds_after_app (st : bounds) (l1 l2 : list Q) :
  bounds_after st (l1 ++ l2) = bounds_after (bounds_after st l1) l2.
Proof. apply foldl_app. Qed.

Lemma broadcast_all_app (msgs1 msgs2 : list string) (w w1 : world) :
  broadcast_all msgs1 w = (inr (), w1) →
  broadcast_all (msgs1 ++ msgs2) w = broadcast_all msgs2 w1.
Proof.
  revert w. induction msgs1 as [|m msgs1 IH]; intros w; simpl.
  - by intros [= <-].
  - destruct (broadcast m w) as [[e|[]] w']; [done|]. apply IH.
Qed.

(** With no connection arriving, the inner loop cuts the blocks of
    [drain_loop], feeds their band powers to the normalisation in order, and
    broadcasts the values that come out, one after the other. *)
Lemma window_loop_quiet (np : numpy) (WINDOW fuel : nat) (st : loop_state)
    (cl cls : gset conn) (log : list (conn * string * bool))
    (blocks : list (list Q)) (rest : list Q) :
  drain_loop WINDOW fuel (buffer st) = Some (blocks, rest) →
  let samples := map (band_power np) blocks in
  let b := bounds_after (min_beta st, max_beta st) samples in
  let msgs := map json_dumps_value
                (omap value_of (feed (min_beta st, max_beta st) samples)) in
  ∃ (cl' : gset conn) (log' : list (conn * string * bool)),
    window_loop np WINDOW fuel st (World cl cls log []) =
      Some (inr (LoopState rest b.1 b.2), World cl' cls log' []) ∧
    broadcast_all msgs (World cl cls log []) = (inr (), World cl' cls log' []).
Proof.
  revert st cl log blocks.
  induction fuel as [|fuel IH]; intros st cl log blocks; [done|].
  simpl. destruct (decide (WINDOW ≤ length (buffer st))) as [Hfull|Hshort].
  - destruct (drain_loop WINDOW fuel _) as [[blocks' rest']|] eqn:Hd; [|done].
    intros [= <- <-].
    unfold process_block.
    rewrite (normalize_eta (band_power np (take WINDOW (buffer st)))).
    set (r := normalize (band_power np (take WINDOW (buffer st)))
                (min_beta st) (max_beta st)).
    cbn [map]. rewrite feed_cons. cbn [fst snd omap foldl bounds_after]. fold r.
    set (st1 := LoopState (drop (OVERLAP WINDOW) (buffer st))
                  (Some (min_seen r)) (Some (max_seen r))).
    change (foldl _ (Some (min_seen r), Some (max_seen r))
              (map (band_power np) blocks'))
      with (bounds_after (min_beta st1, max_beta st1) (map (band_power np) blocks')).
    change (feed (Some (min_seen r), Some (max_seen r)))
      with (feed (min_beta st1, max_beta st1)).
    assert (Homap : ∀ l : list (option Z * Q * Q),
      omap value_of (r :: l) =
        match value_of r with
        | Some val => val :: omap value_of l
        | None => omap value_of l
        end) by done.
    rewrite Homap. clear Homap.
    destruct (value_of r) as [val|] eqn:Hval.
    + cbn [map broadcast_all]. rewrite broadcast_quiet.
      destruct (IH st1 (cl ∖ cls)
                  (log ++ attempts cls (json_dumps_value val) (elements cl))
                  blocks' Hd) as (cl' & log' & Hloop & Hall).
      exists cl', log'. by rewrite Hloop, Hall.
    + destruct (IH st1 cl log blocks' Hd) as (cl' & log' & Hloop & Hall).
      exists cl', log'. by rewrite Hloop, Hall.
  - intros [= <- <-]. exists cl, log. by destruct st.
Qed.

(** The same for the whole loop: over any chunks, with no connection
    arriving, [audio_loop] leaves the buffer that [capture] leaves, holds the
    bounds of the band powers of all blocks cut, and has broadcast the values
    the normalisation returned for them, in order. *)
Lemma audio_loop_quiet (np : numpy) (WINDOW : nat) (chunks : list (list Q))
    (st : loop_state) (cl cls : gset conn) (log : list (conn * string * bool))
    (passes : list (list (list Q) * list Q)) :
  capture WINDOW (buffer st) chunks = Some passes →
  let samples := map (band_power np) (concat passes.*1) in
  let b := bounds_after (min_beta st, max_beta st) samples in
  let msgs := map json_dumps_value
                (omap value_of (feed (min_beta st, max_beta st) samples)) in
  ∃ (cl' : gset conn) (log' : list (conn * string * bool)),
    audio_loop np WINDOW chunks st (World cl cls log []) =
      Some (inr (LoopState (default (buffer st) (last passes.*2)) b.1 b.2),
            World cl' cls log' []) ∧
    broadcast_all msgs (World cl cls log []) = (inr (), World cl' cls log' []).
Proof.
  revert st cl log passes.
  induction chunks as [|data chunks IH]; intros st cl log passes.
  - intros [= <-]. exists cl, log. by destruct st.
  - cbn [capture audio_loop].
    destruct (drain WINDOW _) as [[blocks1 buf1]|] eqn:Hd; [|done].
    destruct (capture WINDOW buf1 chunks) as [passes'|] eqn:Hc; [|done].
    intros [= <-].
    set (st0 := LoopState (append (buffer st) data) (min_beta st) (max_beta st)).
    destruct (window_loop_quiet np WINDOW (S (length (buffer st0))) st0
                cl cls log blocks1 buf1 Hd) as (cl1 & log1 & Hloop & Hall1).
    cbn [buffer min_beta max_beta st0] in Hloop, Hall1.
    cbn [buffer st0]. rewrite Hloop. cbn [suspend arrivals].
    set (b1 := bounds_after (min_beta st, max_beta st)
                 (map (band_power np) blocks1)) in *.
    set (st1 := LoopState buf1 b1.1 b1.2).
    destruct (IH st1 cl1 log1 passes' Hc) as (cl' & log' & Hrest & Hall2).
    cbn [buffer min_beta max_beta st1] in Hrest, Hall2.
    rewrite <- surjective_pairing in Hrest, Hall2.
    exists cl', log'.
    cbn [fmap list_fmap fst snd concat].
    rewrite map_app, bounds_after_app, feed_app, omap_app, map_app.
    fold b1. split.
    + rewrite Hrest. do 3 f_equal. rewrite last_cons.
      by destruct (last passes'.*2).
    + by rewrite (broadcast_all_app _ _ _ _ Hall1).
Qed.

(** * Further properties *)

(** ** The sliding buffer *)

Section AssemblerMore.
Context {A : Type}.
Variable WINDOW : nat.

(** Appending to a buffer that has been drained and draining again is
    draining the longer buffer at once. *)
Lemma drain_loop_app (fuel fuel' : nat) (buffer data : list A)
    (blocks1 blocks2 : list (list A)) (rest1 rest2 : list A) :
  drain_loop WINDOW fuel buffer = Some (blocks1, rest1) →
  drain_loop WINDOW fuel' (rest1 ++ data) = Some (blocks2, rest2) →
  drain_loop WINDOW (fuel + fuel') (buffer ++ data) =
    Some (blocks1 ++ blocks2, rest2).
Proof.
  revert buffer blocks1.
  induction fuel as [|fuel IH]; intros buffer blocks1; [done|].
  cbn [drain_loop Nat.add].
  destruct (decide (WINDOW ≤ length buffer)) as [Hfull|Hshort].
  - destruct (drain_loop WINDOW fuel _) as [[bs r]|] eqn:E; [|done].
    intros [= <- <-] H2.
    rewrite decide_True by (rewrite length_app; lia).
    rewrite take_app_le by done.
    rewrite drop_app_le by (pose proof (OVERLAP_le WINDOW); lia).
    by rewrite (IH _ _ E H2).
  - intros [= <- <-] H2.
    change (drain_loop WINDOW (S (fuel + fuel')) (buffer ++ data) =
            Some ([] ++ blocks2, rest2)).
    apply (drain_loop_more_fuel WINDOW fuel'); [lia|done].
Qed.

Lemma drain_app (buffer data : list A)
    (blocks1 blocks2 : list (list A)) (rest1 rest2 : list A) :
  drain WINDOW buffer = Some (blocks1, rest1) →
  drain WINDOW (rest1 ++ data) = Some (blocks2, rest2) →
  drain WINDOW (buffer ++ data) = Some (blocks1 ++ blocks2, rest2).
Proof.
  intros H1 H2. eapply drain_complete. by eapply drain_loop_app.
Qed.

Lemma drain_short (buffer : list A) :
  length buffer < WINDOW → drain WINDOW buffer = Some ([], buffer).
Proof.
  intros H. unfold drain. simpl. by rewrite decide_False by lia.
Qed.

Lemma capture_stream (buffer : list A) (chunks : list (list A))
    (passes : list (list (list A) * list A)) :
  length buffer < WINDOW →
  capture WINDOW buffer chunks = Some passes →
  drain WINDOW (buffer ++ concat chunks) =
    Some (concat passes.*1, default buffer (last passes.*2)).
Proof.
  revert buffer passes.
  induction chunks as [|data chunks IH]; intros buffer passes Hlen.
  - intros [= <-]. simpl. rewrite app_nil_r. by apply drain_short.
  - cbn [capture]. unfold append.
    destruct (drain WINDOW (buffer ++ data)) as [[blocks1 buf1]|] eqn:Hd; [|done].
    destruct (capture WINDOW buf1 chunks) as [passes'|] eqn:Hc; [|done].
    intros [= <-].
    assert (Hbuf1 : length buf1 < WINDOW) by (by eapply drain_loop_exit).
    pose proof (IH buf1 passes' Hbuf1 Hc) as Hrest.
    cbn [concat fmap list_fmap fst snd]. rewrite app_assoc.
    rewrite (drain_app _ _ _ _ _ _ Hd Hrest). do 2 f_equal.
    rewrite last_cons. by destruct (last passes'.*2).
Qed.

(** X1.  Chunking is transparent: the blocks that the capture loop cuts
    while the chunks come in one by one, and the buffer it ends with, are
    those of one drain of the buffer followed by all the chunks. *)
Theorem capture_is_drain (buffer : list A) (chunks : list (list A))
    (passes : list (list (list A) * list A)) :
  length buffer < WINDOW →
  capture WINDOW buffer chunks = Some passes →
  drain WINDOW (buffer ++ concat chunks) =
    Some (concat passes.*1, default buffer (last passes.*2)).
Proof. apply capture_stream. Qed.
End AssemblerMore.

Lemma capture_is_drain_witness :
  drain 4 ([] ++ concat [[1; 2]; [3; 4]; [5; 6]]) =
    Some (concat [([], [1; 2]); ([[1; 2; 3; 4]], [3; 4]);
                  ([[3; 4; 5; 6]], [5; 6])].*1,
          default [] (last [([], [1; 2]); ([[1; 2; 3; 4]], [3; 4]);
                            ([[3; 4; 5; 6]], [5; 6])].*2)).
Proof.
  exact (capture_is_drain 4 [] [[1; 2]; [3; 4]; [5; 6]] _ ltac:(simpl; lia) eq_refl).
Defined.

Section AssemblerStream.
Context {A : Type}.
Variable WINDOW : nat.

Lemma drain_loop_reassemble (fuel : nat) (buffer : list A)
    (blocks : list (list A)) (rest : list A) :
  drain_loop WINDOW fuel buffer = Some (blocks, rest) →
  concat (take (OVERLAP WINDOW) <$> blocks) ++ rest = buffer.
Proof.
  revert buffer blocks. induction fuel as [|fuel IH]; intros buffer blocks; [done|].
  simpl. destruct (decide (WINDOW ≤ length buffer)) as [Hfull|Hshort].
  - destruct (drain_loop WINDOW fuel _) as [[bs r]|] eqn:E; [|done].
    intros [= <- <-]. cbn [fmap list_fmap concat].
    rewrite take_take, Nat.min_l by apply OVERLAP_le.
    rewrite <- app_assoc, (IH _ _ E). apply take_drop.
  - by intros [= <- <-].
Qed.

(** X2.  No sample is lost and none is kept twice: the first [OVERLAP]
    samples of every block cut, in the order of the blocks, followed by the
    buffer left at the end, are the initial buffer followed by all the chunks
    appended. *)
Theorem capture_reassembles (buffer : list A) (chunks : list (list A))
    (passes : list (list (list A) * list A)) :
  length buffer < WINDOW →
  capture WINDOW buffer chunks = Some passes →
  concat (take (OVERLAP WINDOW) <$> concat passes.*1) ++
    default buffer (last passes.*2) =
  buffer ++ concat chunks.
Proof.
  intros Hlen Hc.
  pose proof (capture_stream WINDOW _ _ _ Hlen Hc) as Hd.
  by apply drain_loop_reassemble in Hd.
Qed.

(** X3.  Every block cut has exactly [WINDOW] samples, and consecutive blocks
    overlap: what a block holds after its first [OVERLAP] samples is what the
    next block starts with. *)
Theorem capture_blocks_overlap (buffer : list A) (chunks : list (list A))
    (passes : list (list (list A) * list A)) (i : nat) (b b' : list A) :
  length buffer < WINDOW →
  capture WINDOW buffer chunks = Some passes →
  concat passes.*1 !! i = Some b →
  concat passes.*1 !! S i = Some b' →
  length b = WINDOW ∧ length b' = WINDOW ∧
  drop (OVERLAP WINDOW) b = take (WINDOW - OVERLAP WINDOW) b'.
Proof.
  intros Hlen Hc Hb Hb'.
  pose proof (capture_stream WINDOW _ _ _ Hlen Hc) as Hd.
  destruct (drain_loop_blocks WINDOW _ _ _ _ Hd) as [Hblocks _].
  destruct (Hblocks i) as [Hi Hfull]; [by eapply lookup_lt_Some|].
  destruct (Hblocks (S i)) as [Hi' Hfull']; [by eapply lookup_lt_Some|].
  rewrite Hb in Hi. rewrite Hb' in Hi'.
  injection Hi as ->. injection Hi' as ->.
  pose proof (OVERLAP_le WINDOW) as HO.
  cbn [Nat.mul] in Hfull'.
  split; [rewrite length_take; lia|]. split; [rewrite length_take; lia|].
  rewrite take_take, Nat.min_l by lia.
  rewrite skipn_firstn_comm, drop_drop. f_equal. f_equal. simpl. lia.
Qed.

End AssemblerStream.

Lemma capture_reassembles_witness :
  concat (take (OVERLAP 4) <$> [[1; 2; 3; 4]; [3; 4; 5; 6]]) ++ [5; 6; 7] =
  [] ++ concat [[1; 2; 3]; [4; 5; 6; 7]].
Proof.
  exact (capture_reassembles 4 [] [[1; 2; 3]; [4; 5; 6; 7]]
           [([], [1; 2; 3]); ([[1; 2; 3; 4]; [3; 4; 5; 6]], [5; 6; 7])]
           ltac:(simpl; lia) eq_refl).
Defined.

Lemma capture_blocks_overlap_witness :
  length [1; 2; 3; 4] = 4 ∧ length [3; 4; 5; 6] = 4 ∧
  drop (OVERLAP 4) [1; 2; 3; 4] = take (4 - OVERLAP 4) [3; 4; 5; 6].
Proof.
  exact (capture_blocks_overlap 4 [] [[1; 2; 3]; [4; 5; 6; 7]]
           [([], [1; 2; 3]); ([[1; 2; 3; 4]; [3; 4; 5; 6]], [5; 6; 7])]
           0 [1; 2; 3; 4] [3; 4; 5; 6]
           ltac:(simpl; lia) eq_refl eq_refl eq_refl).
Defined.

Section Cadence.
Context {A : Type}.
Variable half : nat.
Hypothesis half_pos : 1 ≤ half.

Lemma OVERLAP_double : OVERLAP (2 * half) = half.
Proof. unfold OVERLAP. rewrite Nat.mul_comm. apply Nat.div_mul. lia. Qed.

(** A buffer of exactly one window gives that window and keeps its second
    half. *)
Lemma drain_one_window (l : list A) :
  length l = 2 * half →
  drain (2 * half) l = Some ([l], drop half l).
Proof.
  intros Hl. unfold drain. cbn [drain_loop].
  rewrite decide_True by lia. rewrite OVERLAP_double, take_ge by lia.
  destruct (length l) as [|fuel] eqn:E; [lia|]. cbn [drain_loop].
  rewrite decide_False; [done|]. rewrite length_drop. lia.
Qed.

Lemma capture_steady (buf : list A) (chunks : list (list A)) :
  length buf = half → Forall (λ c, length c = half) chunks →
  capture (2 * half) buf chunks =
    Some (zip_with (λ prev c, ([prev ++ c], c)) (buf :: chunks) chunks).
Proof.
  intros Hbuf Hchunks. revert buf Hbuf.
  induction Hchunks as [|c chunks Hc _ IH]; intros buf Hbuf; [done|].
  cbn [capture]. unfold append.
  rewrite drain_one_window by (rewrite length_app; lia).
  replace (drop half (buf ++ c)) with c
    by (rewrite <- Hbuf; symmetry; apply drop_app_length).
  by rewrite (IH c Hc).
Qed.

(** X5.  The cadence of the capture loop, which appends [OVERLAP] samples
    at a time: with a window of an even number of samples the first chunk
    gives no block, and every later chunk gives exactly one, made of the
    chunk before it and of the chunk itself, and is what the buffer keeps. *)
Theorem capture_cadence (first : list A) (chunks : list (list A)) :
  Forall (λ c, length c = OVERLAP (2 * half)) (first :: chunks) →
  capture (2 * half) [] (first :: chunks) =
    Some (([], first) ::
          zip_with (λ prev c, ([prev ++ c], c)) (first :: chunks) chunks).
Proof.
  rewrite OVERLAP_double. intros Hall.
  apply Forall_cons in Hall as [Hfirst Hchunks].
  cbn [capture]. unfold append. rewrite app_nil_l.
  rewrite drain_short by lia. by rewrite capture_steady.
Qed.
End Cadence.

Lemma capture_cadence_witness :
  capture (2 * 2) [] [[1; 2]; [3; 4]; [5; 6]] =
    Some (([], [1; 2]) ::
          zip_with (λ prev c, ([prev ++ c], c))
            [[1; 2]; [3; 4]; [5; 6]] [[3; 4]; [5; 6]]).
Proof.
  refine (capture_cadence 2 ltac:(lia) [1; 2] [[3; 4]; [5; 6]] _).
  repeat constructor.
Defined.

(** ** The broadcaster *)

Lemma suspend_arrival (cl cls : gset conn) (log : list (conn * string * bool))
    (new : list conn) (later : list (list conn)) :
  suspend (World cl cls log (new :: later)) =
    World (list_to_set new ∪ cl) cls log later.
Proof. unfold suspend. cbn [arrivals]. by rewrite foldr_handler_enter. Qed.

Lemma for_each_client_interrupted (cl cls : gset conn) (msg : string)
    (new : list conn) (ws : conn) (k : nat) :
  ws ∈ new → ws ∉ cl →
  ∀ (todo : list conn) (log : list (conn * string * bool))
    (arr : list (list conn)) (dead : gset conn),
    k < length todo → undisturbed k arr → arr !! k = Some new →
    for_each_client (size cl) todo msg dead (World cl cls log arr) =
      (inl RuntimeError,
       World (list_to_set new ∪ cl) cls
         (log ++ attempts cls msg (take (S k) todo)) (drop (S k) arr)).
Proof.
  intros Hws Hfresh.
  assert (Hsize : size (list_to_set new ∪ cl : gset conn) ≠ size cl).
  { assert (size cl < size (list_to_set new ∪ cl : gset conn)); [|lia].
    apply subset_size. split; [apply union_subseteq_r|].
    intros Hsub. apply Hfresh, Hsub, elem_of_union_l.
    by apply elem_of_list_to_set. }
  induction k as [|k IH]; intros todo log arr dead Hk Harr Hnew;
    (destruct todo as [|c todo]; [simpl in Hk; lia|]);
    (destruct arr as [|first later]; [done|]);
    cbn [for_each_client clients]; rewrite decide_True by done; unfold send.
  - injection Hnew as ->. rewrite suspend_arrival.
    cbn [clients closed sent arrivals].
    destruct todo; cbn [for_each_client clients]; by rewrite decide_False.
  - apply undisturbed_S in Harr as [H1 Hn].
    rewrite (suspend_undisturbed _ _ _ _ H1).
    cbn [clients closed sent arrivals drop]. cbn [drop] in Hn.
    rewrite (IH todo _ later _ ltac:(simpl in Hk; lia) Hn Hnew).
    by rewrite <- app_assoc.
Qed.

(** X6.  A connection that registers while a broadcast is suspended in one of
    its sends ends the broadcast there: whatever the position [k] of that
    send, the broadcast raises [RuntimeError] after [k + 1] calls of [send],
    and removes nobody from the registry, not even the members whose send
    failed. *)
Theorem broadcast_interrupted_at (cl cls : gset conn)
    (log : list (conn * string * bool)) (arr : list (list conn)) (msg : string)
    (k : nat) (new : list conn) (ws : conn) :
  k < size cl → undisturbed k arr → arr !! k = Some new →
  ws ∈ new → ws ∉ cl →
  broadcast msg (World cl cls log arr) =
    (inl RuntimeError,
     World (list_to_set new ∪ cl) cls
       (log ++ attempts cls msg (take (S k) (elements cl))) (drop (S k) arr)).
Proof.
  intros Hk Harr Hnew Hws Hfresh. unfold broadcast. cbn [clients].
  by rewrite (for_each_client_interrupted cl cls msg new ws k Hws Hfresh).
Qed.

Lemma broadcast_interrupted_at_witness :
  broadcast "m" (World {[1; 2; 3]} {[3]} [] [[]; [7]; [8]])%positive =
    (inl RuntimeError,
     World (list_to_set [7] ∪ {[1; 2; 3]}) {[3]}
       ([] ++ attempts {[3]} "m" (take 2 (elements ({[1; 2; 3]} : gset conn))))
       (drop 2 [[]; [7]; [8]]))%positive.
Proof.
  refine (broadcast_interrupted_at {[1; 2; 3]} {[3]} [] [[]; [7]; [8]] "m"
            1 [7] 7 _ _ eq_refl _ _)%positive.
  - vm_compute. lia.
  - unfold undisturbed. vm_compute. repeat constructor.
  - apply list_elem_of_here.
  - vm_compute. intros H. discriminate H.
Defined.

(** X7.  A connection whose handler has registered it before a broadcast
    starts is sent the message of that broadcast and stays registered,
    provided its peer has not gone and nobody registers during the
    broadcast. *)
Theorem joiner_served_by_next (cl cls : gset conn)
    (log : list (conn * string * bool)) (arr : list (list conn))
    (msg : string) (ws : conn) :
  ws ∉ cls → undisturbed (size ({[ws]} ∪ cl)) arr →
  ∃ w' : world,
    broadcast msg (handler_enter ws (World cl cls log arr)) = (inr (), w') ∧
    (ws, msg, true) ∈ sent w' ∧ ws ∈ clients w'.
Proof.
  intros Hopen Harr. unfold handler_enter. cbn [clients closed sent arrivals].
  rewrite broadcast_undisturbed by done.
  eexists. split; [done|]. cbn [clients sent]. split.
  - apply elem_of_app. right. unfold attempts. apply list_elem_of_fmap.
    exists ws. rewrite bool_decide_eq_true_2 by done. split; [done|].
    apply elem_of_elements, elem_of_union_l. by apply elem_of_singleton.
  - apply elem_of_difference. split; [|done].
    apply elem_of_union_l. by apply elem_of_singleton.
Qed.

Lemma joiner_served_by_next_witness :
  ∃ w' : world,
    broadcast "m" (handler_enter 2 (World {[1]} {[1]} [] [[]; []; [5]]))%positive =
      (inr (), w') ∧
    (2%positive, "m", true) ∈ sent w' ∧ 2%positive ∈ clients w'.
Proof.
  refine (joiner_served_by_next {[1]} {[1]} [] [[]; []; [5]] "m" 2 _ _)%positive.
  - vm_compute. intros H. discriminate H.
  - unfold undisturbed. vm_compute. repeat constructor.
Defined.

(** X8.  A subscriber whose send failed is contacted once: after one
    undisturbed broadcast the registry holds no member whose peer has gone,
    so in the broadcast that follows every send succeeds and the registry
    stays as it is. *)
Theorem broadcast_twice (cl cls : gset conn) (log : list (conn * string * bool))
    (arr : list (list conn)) (msg1 msg2 : string) :
  undisturbed (size cl) arr →
  undisturbed (size (cl ∖ cls)) (drop (size cl) arr) →
  broadcast_all [msg1; msg2] (World cl cls log arr) =
    (inr (),
     World (cl ∖ cls) cls
       (log ++ attempts cls msg1 (elements cl) ++
        map (λ c, (c, msg2, true)) (elements (cl ∖ cls)))
       (drop (size (cl ∖ cls)) (drop (size cl) arr))).
Proof.
  intros H1 H2. cbn [broadcast_all].
  rewrite broadcast_undisturbed by done.
  rewrite broadcast_undisturbed by done.
  f_equal. f_equal.
  - apply set_eq. intros c. rewrite !elem_of_difference. tauto.
  - rewrite <- app_assoc. do 2 f_equal. unfold attempts.
    apply map_ext_in. intros c Hc. apply list_elem_of_In, elem_of_elements in Hc.
    apply elem_of_difference in Hc as [_ Hc]. by rewrite bool_decide_eq_true_2.
Qed.

Lemma broadcast_twice_witness :
  broadcast_all ["a"; "b"] (World {[1; 2; 3]} {[2]} [] [])%positive =
    (inr (),
     World ({[1; 2; 3]} ∖ {[2]}) {[2]}
       ([] ++ attempts {[2]} "a" (elements ({[1; 2; 3]} : gset conn)) ++
        map (λ c, (c, "b", true)) (elements ({[1; 2; 3]} ∖ {[2]} : gset conn)))
       (drop (size ({[1; 2; 3]} ∖ {[2]} : gset conn))
          (drop (size ({[1; 2; 3]} : gset conn)) [])))%positive.
Proof.
  refine (broadcast_twice {[1; 2; 3]} {[2]} [] [] "a" "b" _ _)%positive;
    unfold undisturbed; vm_compute; constructor.
Defined.

(** X23.  As long as no connection is accepted while it runs, one broadcast
    calls [send] once for every member of the registry, whether or not the
    sends before it failed; the loop itself leaves the registry alone and
    collects the members whose send failed, and these are removed after the
    loop.  With three subscribers of which one fails closed, the other two
    are delivered the message and are what the registry holds afterwards. *)
Theorem broadcast_fan_out :
  (∀ (cl cls : gset conn) (log : list (conn * string * bool))
     (arr : list (list conn)) (msg : string),
     undisturbed (size cl) arr →
     (NoDup (elements cl) ∧ ∀ c, c ∈ elements cl ↔ c ∈ cl) ∧
     for_each_client (size cl) (elements cl) msg ∅ (World cl cls log arr) =
       (inr (cl ∩ cls),
        World cl cls (log ++ attempts cls msg (elements cl)) (drop (size cl) arr)) ∧
     broadcast msg (World cl cls log arr) =
       (inr (),
        World (cl ∖ cls) cls (log ++ attempts cls msg (elements cl))
          (drop (size cl) arr))) ∧
  broadcast "m" (World {[1; 2; 3]} {[2]} [] [])%positive =
    (inr (),
     World {[1; 3]} {[2]} [(3, "m", true); (2, "m", false); (1, "m", true)] [])%positive.
Proof.
  split; [|by vm_compute].
  intros cl cls log arr msg Harr. split; [|split].
  - split; [apply NoDup_elements|]. intros c. apply elem_of_elements.
  - destruct (for_each_client_undisturbed cl cls log arr msg (elements cl) ∅ Harr)
      as (dead' & -> & Hdead).
    do 2 f_equal. apply set_eq. intros c.
    rewrite Hdead, elem_of_intersection, elem_of_elements, elem_of_empty. tauto.
  - by apply broadcast_undisturbed.
Qed.

Lemma broadcast_fan_out_witness :
  broadcast "m" (World {[1; 2; 3]} {[2]} [] [[]; []; []; [4]])%positive =
    (inr (),
     World ({[1; 2; 3]} ∖ {[2]}) {[2]}
       ([] ++ attempts {[2]} "m" (elements ({[1; 2; 3]} : gset conn)))
       (drop (size ({[1; 2; 3]} : gset conn)) [[]; []; []; [4]]))%positive.
Proof.
  refine (proj2 (proj2 (proj1 broadcast_fan_out {[1; 2; 3]} {[2]} []
                          [[]; []; []; [4]] "m" _)))%positive.
  unfold undisturbed. vm_compute. repeat constructor.
Defined.

(** ** The capture loop *)

Lemma normalize_value_range (s : Q) (a b : option Q) (v : Z) :
  value_of (normalize s a b) = Some v → (0 ≤ v ≤ 100)%Z.
Proof.
  rewrite normalize_value. cbv zeta.
  destruct (normalize_brackets s a b) as [Hlo Hhi].
  destruct (Qeq_bool _ _) eqn:E; [done|]. intros [= <-].
  assert (Hne : ¬ (max_seen (normalize s a b) == min_seen (normalize s a b))%Q).
  { intros H. apply Qeq_bool_iff in H. congruence. }
  assert (Hlt : (min_seen (normalize s a b) < max_seen (normalize s a b))%Q) by lra.
  destruct (ratio_range s _ _ Hlo Hhi Hlt) as [H0 H100].
  apply py_round_range; unfold inject_Z; lra.
Qed.

Lemma suspend_sent (w : world) : sent (suspend w) = sent w.
Proof.
  unfold suspend. destruct (arrivals w) as [|new later]; [done|].
  by rewrite foldr_handler_enter.
Qed.

Lemma for_each_client_sent (si_used : nat) (todo : list conn) (msg : string)
    (dead : gset conn) (w : world) :
  ∃ l : list (conn * string * bool),
    sent (for_each_client si_used todo msg dead w).2 = sent w ++ l ∧
    Forall (λ e, e.1.2 = msg) l.
Proof.
  revert dead w. induction todo as [|c todo IH]; intros dead w;
    cbn [for_each_client]; destruct (decide _);
    try (exists []; by rewrite app_nil_r).
  unfold send.
  match goal with
  | |- context [for_each_client si_used todo msg ?d ?w1] =>
      destruct (IH d w1) as (l & -> & Hl)
  end.
  cbn [sent]. rewrite suspend_sent, <- app_assoc.
  eexists. split; [done|]. by constructor.
Qed.

Lemma broadcast_sent (msg : string) (w : world) :
  ∃ l : list (conn * string * bool),
    sent (broadcast msg w).2 = sent w ++ l ∧ Forall (λ e, e.1.2 = msg) l.
Proof.
  unfold broadcast.
  destruct (for_each_client_sent (size (clients w)) (elements (clients w)) msg ∅ w)
    as (l & Hl & Hall).
  destruct (for_each_client _ _ _ _ _) as [[e|dead] w']; by exists l.
Qed.

Lemma window_loop_sent (np : numpy) (WINDOW fuel : nat) (st : loop_state)
    (w : world) (r : exn + loop_state) (w' : world) :
  window_loop np WINDOW fuel st w = Some (r, w') →
  ∃ l, sent w' = sent w ++ l ∧ Forall value_frame l.
Proof.
  revert st w. induction fuel as [|fuel IH]; intros st w; [done|].
  cbn [window_loop]. destruct (decide _); cycle 1.
  { intros [= <- <-]. exists []. by rewrite app_nil_r. }
  unfold process_block.
  rewrite (normalize_eta (band_power np (take WINDOW (buffer st)))).
  destruct (value_of _) as [val|] eqn:Hval; [|apply IH].
  apply normalize_value_range in Hval.
  destruct (broadcast_sent (json_dumps_value val) w) as (l1 & Hl1 & Hall1).
  assert (Hframes : Forall value_frame l1).
  { eapply Forall_impl; [exact Hall1|]. intros e He. by exists val. }
  destruct (broadcast _ w) as [[e|[]] w1]; cbn [snd] in Hl1.
  - intros [= <- <-]. by exists l1.
  - intros Hloop. apply IH in Hloop as (l2 & -> & Hall2).
    exists (l1 ++ l2). rewrite Hl1, app_assoc. split; [done|].
    by apply Forall_app.
Qed.

(** X9.  Whatever the environment does and however the loop ends, every
    frame the capture loop has sent is [{"value": v}] for an integer [v] from
    0 to 100. *)
Theorem audio_loop_frames (np : numpy) (WINDOW : nat) (chunks : list (list Q))
    (st : loop_state) (w : world) (r : exn + loop_state) (w' : world) :
  audio_loop np WINDOW chunks st w = Some (r, w') →
  ∃ l, sent w' = sent w ++ l ∧ Forall value_frame l.
Proof.
  revert st w. induction chunks as [|data chunks IH]; intros st w.
  - intros [= <- <-]. exists []. by rewrite app_nil_r.
  - cbn [audio_loop].
    destruct (window_loop _ _ _ _ _) as [[[e|st1] w1]|] eqn:Hloop; [|..|done].
    + intros [= <- <-]. by eapply window_loop_sent.
    + intros Hrest. apply window_loop_sent in Hloop as (l1 & Hl1 & Hall1).
      apply IH in Hrest as (l2 & -> & Hall2).
      exists (l1 ++ l2). rewrite suspend_sent, Hl1, app_assoc. split; [done|].
      by apply Forall_app.
Qed.

(** ** The normalisation *)

Local Open Scope Q_scope.

Lemma py_round_comp (x y : Q) : x == y → py_round x = py_round y.
Proof.
  intros H. unfold py_round. rewrite (Qfloor_comp _ _ H).
  assert (Hfrac : x - inject_Z (Qfloor y) == y - inject_Z (Qfloor y)) by lra.
  by rewrite (Qcompare_comp _ _ Hfrac _ _ (Qeq_refl _)).
Qed.

Lemma py_round_floor (x : Q) :
  py_round x = Qfloor x ∨ py_round x = (Qfloor x + 1)%Z.
Proof.
  unfold py_round. destruct (Qcompare _ _); [destruct (Z.even _)|..]; auto.
Qed.

(** Rounding keeps the order. *)
Lemma py_round_mono (x y : Q) : x <= y → (py_round x ≤ py_round y)%Z.
Proof.
  intros Hxy. pose proof (Qfloor_resp_le _ _ Hxy) as Hf.
  destruct (Z.eq_dec (Qfloor x) (Qfloor y)) as [E|NE].
  - unfold py_round. rewrite E.
    destruct (Qcompare_spec (x - inject_Z (Qfloor y)) (1 # 2)) as [Hx|Hx|Hx],
             (Qcompare_spec (y - inject_Z (Qfloor y)) (1 # 2)) as [Hy|Hy|Hy];
      try destruct (Z.even (Qfloor y)); try lia; exfalso; lra.
  - destruct (py_round_floor x) as [->| ->], (py_round_floor y) as [->| ->]; lia.
Qed.

(** The result that follows a run's [i]-th one. *)
Lemma feed_step (st : bounds) (samples : list Q) (i : nat) (s : Q)
    (r : option Z * Q * Q) :
  feed st samples !! i = Some r → samples !! S i = Some s →
  feed st samples !! S i =
    Some (normalize s (Some (min_seen r)) (Some (max_seen r))).
Proof.
  revert st i. induction samples as [|s0 rest IH]; intros st i; [done|].
  rewrite feed_cons. destruct i as [|i]; cbn [lookup list_lookup].
  - intros [= <-]. destruct rest as [|s1 rest]; [done|].
    rewrite feed_cons. by intros [= <-].
  - apply IH.
Qed.

(** X11.  A record is reported as an extreme: in any run, a sample strictly
    below every sample before it yields the value 0, and one strictly above
    every sample before it yields 100. *)
Theorem normalizer_records (samples : list Q) (i : nat) (s : Q) :
  samples !! S i = Some s →
  (Forall (λ x, s < x) (take (S i) samples) →
   value_of <$> feed no_bounds samples !! S i = Some (Some 0%Z)) ∧
  (Forall (λ x, x < s) (take (S i) samples) →
   value_of <$> feed no_bounds samples !! S i = Some (Some 100%Z)).
Proof.
  intros Hs.
  destruct (lookup_lt_is_Some_2 (feed no_bounds samples) i) as [r Hr].
  { rewrite feed_length. apply lookup_lt_Some in Hs. lia. }
  rewrite (feed_step _ _ _ _ _ Hr Hs). cbn [fmap option_fmap option_map].
  destruct (feed_extremes _ _ _ Hr) as [[Hmin1 Hmin2] [Hmax1 Hmax2]].
  set (a := min_seen r) in *. set (b := max_seen r) in *.
  assert (Hab : a <= b).
  { rewrite Forall_forall in Hmax2. by apply Hmax2. }
  rewrite normalize_value. cbv zeta. rewrite normalize_min, normalize_max.
  split; intros Hall; rewrite Forall_forall in Hall.
  - pose proof (Hall _ Hmin1) as Hlt.
    destruct (py_min_cases a s) as [[-> ?]|[-> _]]; [lra|].
    destruct (py_max_cases b s) as [[-> _]|[-> ?]]; [|lra].
    destruct (Qeq_bool b s) eqn:E; [apply Qeq_bool_iff in E; lra|].
    do 2 f_equal. rewrite (py_round_comp _ 0); [done|].
    unfold Qminus. rewrite Qplus_opp_r. unfold Qdiv. by rewrite !Qmult_0_l.
  - pose proof (Hall _ Hmax1) as Hlt.
    destruct (py_min_cases a s) as [[-> _]|[-> ?]]; [|lra].
    destruct (py_max_cases b s) as [[-> ?]|[-> _]]; [lra|].
    destruct (Qeq_bool s a) eqn:E; [apply Qeq_bool_iff in E; lra|].
    do 2 f_equal. rewrite (py_round_comp _ 100); [done|].
    assert (Hne : ¬ s - a == 0) by lra.
    unfold Qdiv. rewrite Qmult_inv_r by done. lra.
Qed.

Lemma normalizer_records_witness :
  value_of <$> feed no_bounds [3; 5; 1] !! 2%nat = Some (Some 0%Z) ∧
  value_of <$> feed no_bounds [3; 1; 5] !! 2%nat = Some (Some 100%Z).
Proof.
  split.
  - refine (proj1 (normalizer_records [3; 5; 1] 1 1 eq_refl) _).
    repeat constructor.
  - refine (proj2 (normalizer_records [3; 1; 5] 1 5 eq_refl) _).
    repeat constructor.
Defined.

(** X12.  Against fixed bounds the value follows the sample: of two samples
    between the bounds, the larger one is given a value at least as large. *)
Theorem normalize_monotone (s1 s2 a b : Q) :
  a <= s1 → s1 <= s2 → s2 <= b → a < b →
  ∃ v1 v2 : Z,
    normalize s1 (Some a) (Some b) = (Some v1, a, b) ∧
    normalize s2 (Some a) (Some b) = (Some v2, a, b) ∧
    (v1 ≤ v2)%Z.
Proof.
  intros H1 H12 H2 Hab.
  assert (Hkeep : ∀ s, a <= s → s <= b →
    normalize s (Some a) (Some b) =
      (Some (py_round ((s - a) / (b - a) * 100)), a, b)).
  { intros s Hs1 Hs2. unfold normalize, py_min, py_max.
    assert (Qlt_bool s a = false) as -> by (apply Qlt_bool_false; lra).
    assert (Qlt_bool b s = false) as -> by (apply Qlt_bool_false; lra).
    destruct (Qeq_bool b a) eqn:E; [apply Qeq_bool_iff in E; lra|done]. }
  eexists _, _. split; [apply Hkeep; lra|]. split; [apply Hkeep; lra|].
  apply py_round_mono.
  assert (Hd : 0 < b - a) by lra.
  assert (Hq : (s1 - a) / (b - a) <= (s2 - a) / (b - a)).
  { unfold Qdiv. apply Qmult_le_compat_r; [lra|].
    apply Qlt_le_weak. by apply Qinv_lt_0_compat. }
  lra.
Qed.

Lemma normalize_monotone_witness :
  ∃ v1 v2 : Z,
    normalize 2 (Some 1) (Some 5) = (Some v1, 1, 5) ∧
    normalize 4 (Some 1) (Some 5) = (Some v2, 1, 5) ∧
    (v1 ≤ v2)%Z.
Proof.
  exact (normalize_monotone 2 4 1 5 ltac:(lra) ltac:(lra) ltac:(lra) ltac:(lra)).
Defined.

(** ** The spectral analysis *)

Lemma abs_sq_nonneg (z : Q * Q) : 0 <= abs_sq z.
Proof.
  unfold abs_sq. nra.
Qed.

Lemma np_sum_mask_nonneg (P : list Q) (mask : list bool) :
  Forall (Qle 0) P → 0 <= np_sum (mask_index P mask).
Proof.
  intros HP. revert mask. induction HP as [|x P Hx _ IH]; intros mask.
  - by destruct mask.
  - destruct mask as [|[] mask]; cbn [mask_index np_sum foldr]; [done|..].
    + specialize (IH mask). unfold np_sum in IH. lra.
    + apply IH.
Qed.

(** X14.  The band power of a block is never negative, whatever the block
    and whatever values the cosines and sines take. *)
Theorem band_power_nonneg (np : numpy) (block : list Q) :
  0 <= band_power np block.
Proof.
  unfold band_power. apply np_sum_mask_nonneg.
  apply Forall_forall. intros p Hp. apply list_elem_of_fmap in Hp as (z & -> & _).
  apply abs_sq_nonneg.
Qed.

(** The band power, entry by entry. *)
Lemma band_power_indexwise (np : numpy) (block : list Q) :
  band_power np block == analyze_spec np (length block) block.
Proof.
  set (numBins := (length block / 2 + 1)%nat).
  set (bins := np_fft_rfft np (zip_with Qmult block (np_hamming np (length block)))).
  assert (Hbins : length bins = numBins).
  { unfold bins, numBins. rewrite length_np_fft_rfft.
    by rewrite length_zip_with_l_eq by (by rewrite length_np_hamming). }
  unfold band_power. fold bins.
  rewrite length_map, Hbins. unfold arange. rewrite !map_map.
  rewrite <- Hbins at 1.
  rewrite (np_sum_mask_index abs_sq (0, 0)
             (λ k, Qle_bool BETA_MIN_F
                     (inject_Z (Z.of_nat k * FS) /
                      inject_Z (2 * (Z.of_nat numBins - 1))) &&
                   Qle_bool
                     (inject_Z (Z.of_nat k * FS) /
                      inject_Z (2 * (Z.of_nat numBins - 1))) BETA_MAX_F)
             bins 0).
  rewrite Hbins. unfold analyze_spec. cbv zeta. fold numBins.
  assert (Hext :
    map (λ k, if Qle_bool BETA_MIN_F
                   (inject_Z (Z.of_nat (0 + k) * FS) /
                    inject_Z (2 * (Z.of_nat numBins - 1))) &&
                 Qle_bool
                   (inject_Z (Z.of_nat (0 + k) * FS) /
                    inject_Z (2 * (Z.of_nat numBins - 1))) BETA_MAX_F
              then abs_sq (nth k bins (0, 0)) else 0) (seq 0 numBins) =
    map (λ k, if in_band (bin_frequency numBins k)
              then abs_sq (dft_bin np
                             (λ j, nth j block 0 * hamming_weight np (length block) j)
                             (length block) k)
              else 0) (seq 0 numBins)).
  { apply map_ext_in. intros k Hk. apply in_seq in Hk.
    cbn [Nat.add].
    change (Qle_bool BETA_MIN_F ?f && Qle_bool ?f BETA_MAX_F) with (in_band f).
    rewrite (in_band_comp _ _ (bin_frequency_code numBins k)).
    unfold bins. rewrite tapered_bin by (fold numBins; lia). done. }
  by rewrite Hext.
Qed.

Lemma np_sum_ext {B : Type} (f g : B → Q) (l : list B) :
  (∀ x, In x l → f x == g x) → np_sum (map f l) == np_sum (map g l).
Proof.
  induction l as [|x l IH]; intros H; [reflexivity|].
  cbn [map np_sum foldr]. change (foldr Qplus 0) with np_sum.
  rewrite (H x) by (by left). rewrite IH; [reflexivity|].
  intros y Hy. apply H. by right.
Qed.

Lemma np_sum_scale {B : Type} (c : Q) (f : B → Q) (l : list B) :
  np_sum (map (λ x, c * f x) l) == c * np_sum (map f l).
Proof.
  induction l as [|x l IH]; cbn [map np_sum foldr]; [ring|].
  change (foldr Qplus 0) with np_sum. rewrite IH. ring.
Qed.

Lemma np_sum_app (l1 l2 : list Q) :
  np_sum (l1 ++ l2) == np_sum l1 + np_sum l2.
Proof.
  unfold np_sum. induction l1 as [|x l1 IH]; cbn [app foldr]; [ring|].
  rewrite IH. ring.
Qed.

Lemma np_sum_zero {B : Type} (f : B → Q) (l : list B) :
  (∀ x, In x l → f x == 0) → np_sum (map f l) == 0.
Proof.
  intros H. rewrite (np_sum_ext f (λ _, 0 * 0)).
  - rewrite (np_sum_scale 0 (λ _, 0)). lra.
  - intros x Hx. rewrite (H x Hx). lra.
Qed.

(** A sum over the indices that pass a test which singles out a range is the
    sum over that range. *)
Lemma np_sum_range (p : nat → bool) (f : nat → Q) (lo len N : nat) :
  (lo + len ≤ N)%nat →
  (∀ k, (k < N)%nat → p k = true ↔ (lo ≤ k < lo + len)%nat) →
  np_sum (map (λ k, if p k then f k else 0) (seq 0 N)) ==
  np_sum (map f (seq lo len)).
Proof.
  intros HN Hp.
  replace N with (lo + (len + (N - lo - len)))%nat by lia.
  rewrite !seq_app, !map_app, !np_sum_app. cbn [Nat.add].
  rewrite (np_sum_zero _ (seq 0 lo)), (np_sum_zero _ (seq (lo + len) _)).
  - rewrite (np_sum_ext _ f (seq lo len)); [lra|].
    intros k Hk. apply in_seq in Hk.
    destruct (p k) eqn:E; [reflexivity|].
    assert (p k = true) by (apply Hp; lia). congruence.
  - intros k Hk. apply in_seq in Hk.
    destruct (p k) eqn:E; [|reflexivity]. apply Hp in E; lia.
  - intros k Hk. apply in_seq in Hk.
    destruct (p k) eqn:E; [|reflexivity]. apply Hp in E; lia.
Qed.

(** X16.  At the sizes the program runs with, a window of [44100] samples at
    [FS = 44100], the band power is the sum of the squared magnitudes of the
    nineteen bins 12 to 30 of the tapered window, bin [k] being the one of
    [k] Hz. *)
Theorem band_power_deployed (np : numpy) (window : list Q) :
  length window = Z.to_nat 44100 →
  band_power np window ==
    np_sum (map (λ k, abs_sq
                        (dft_bin np
                           (λ j, nth j window 0 *
                                 hamming_weight np (Z.to_nat 44100) j)
                           (Z.to_nat 44100) k))
                (seq 12 19)).
Proof.
  intros Hlen. rewrite band_power_indexwise, Hlen.
  unfold analyze_spec. cbv zeta.
  assert (Hbins : (Z.to_nat 44100 / 2 + 1)%nat = Z.to_nat 22051).
  { apply Nat2Z.inj. rewrite Nat2Z.inj_add, Nat2Z.inj_div, !Z2Nat.id by lia.
    reflexivity. }
  rewrite Hbins.
  apply (np_sum_range (λ k, in_band (bin_frequency (Z.to_nat 22051) k))).
  - lia.
  - intros k _. rewrite (proj2 (deployed_band k)). lia.
Qed.

Lemma band_power_deployed_witness :
  band_power numpy4 (replicate (Z.to_nat 44100) 1) ==
    np_sum (map (λ k, abs_sq
                        (dft_bin numpy4
                           (λ j, nth j (replicate (Z.to_nat 44100) 1) 0 *
                                 hamming_weight numpy4 (Z.to_nat 44100) j)
                           (Z.to_nat 44100) k))
                (seq 12 19)).
Proof.
  exact (band_power_deployed numpy4 (replicate (Z.to_nat 44100) 1)
           (length_replicate _ _)).
Defined.

(** ** From the samples to the frames *)

Local Close Scope Q_scope.

(** X17.  With no connection arriving, the capture loop is the composition of
    its parts: over any chunks on which the buffer loop terminates, it ends
    with the buffer that cutting the chunks leaves and with the bounds of the
    band powers of the blocks cut, and what it has sent is what broadcasting,
    one after the other, the values that the normalisation returns for these
    band powers sends. *)
Theorem audio_loop_pipeline (np : numpy) (WINDOW : nat) (chunks : list (list Q))
    (st : loop_state) (cl cls : gset conn) (log : list (conn * string * bool))
    (passes : list (list (list Q) * list Q)) :
  capture WINDOW (buffer st) chunks = Some passes →
  let samples := map (band_power np) (concat passes.*1) in
  let b := bounds_after (min_beta st, max_beta st) samples in
  let msgs := map json_dumps_value
                (omap value_of (feed (min_beta st, max_beta st) samples)) in
  ∃ (cl' : gset conn) (log' : list (conn * string * bool)),
    audio_loop np WINDOW chunks st (World cl cls log []) =
      Some (inr (LoopState (default (buffer st) (last passes.*2)) b.1 b.2),
            World cl' cls log' []) ∧
    broadcast_all msgs (World cl cls log []) = (inr (), World cl' cls log' []).
Proof. apply audio_loop_quiet. Qed.

Lemma audio_loop_pipeline_witness :
  let st := LoopState [] None None in
  let passes := [([], [1; 2]); ([[1; 2; 3; 4]], [3; 4])]%Q in
  let samples := map (band_power numpy4) (concat passes.*1) in
  let b := bounds_after (min_beta st, max_beta st) samples in
  let msgs := map json_dumps_value
                (omap value_of (feed (min_beta st, max_beta st) samples)) in
  ∃ (cl' : gset conn) (log' : list (conn * string * bool)),
    audio_loop numpy4 4 [[1; 2]; [3; 4]]%Q st (World {[1%positive]} ∅ [] []) =
      Some (inr (LoopState (default (buffer st) (last passes.*2)) b.1 b.2),
            World cl' ∅ log' []) ∧
    broadcast_all msgs (World {[1%positive]} ∅ [] []) =
      (inr (), World cl' ∅ log' []).
Proof.
  exact (audio_loop_pipeline numpy4 4 [[1; 2]; [3; 4]]%Q (LoopState [] None None)
           {[1%positive]} ∅ [] _ eq_refl).
Defined.

(** ** Rounded arithmetic *)

Local Open Scope Q_scope.

(** X19.  The range of the value does not rest on the arithmetic being
    exact.  Let every subtraction, division and multiplication of line 38
    round its result, by any rounding that keeps the order and leaves 0, 1
    and 100 as they are: for a sample between the bounds and a divisor that
    is not zero the value is still an integer from 0 to 100. *)
Theorem rounded_value_range (rnd : Q → Q) (s mn mx : Q) :
  (∀ x y : Q, x <= y → rnd x <= rnd y) →
  rnd 0 == 0 → rnd 1 == 1 → rnd 100 == 100 →
  mn <= s → s <= mx → ¬ rnd (mx - mn) == 0 →
  (0 ≤ rounded_value rnd s mn mx ≤ 100)%Z.
Proof.
  intros Hmono H0 H1 H100 Hlo Hhi _. unfold rounded_value.
  by apply rounded_ratio_range.
Qed.

Lemma rounded_value_range_witness :
  (0 ≤ rounded_value round_down_16 2 1 4 ≤ 100)%Z.
Proof.
  refine (rounded_value_range round_down_16 2 1 4 round_down_16_mono
            _ _ _ ltac:(lra) ltac:(lra) _); try reflexivity.
  intros H. discriminate H.
Defined.

Local Close Scope Q_scope.

(** ** The registry *)

(** X20.  Unregistering undoes registering: a connection that was not
    registered, once its handler has added it and discarded it again, leaves
    the registry as it was; and discarding a connection that is not
    registered changes nothing. *)
Theorem handler_round_trip (ws : conn) (w : world) :
  ws ∉ clients w →
  handler_exit ws (handler_enter ws w) = w ∧ handler_exit ws w = w.
Proof.
  intros Hfresh. destruct w as [cl cls log arr]. unfold handler_exit, handler_enter.
  cbn [clients closed sent arrivals] in *.
  split; f_equal; apply set_eq; intros c;
    rewrite ?elem_of_difference, ?elem_of_union, !elem_of_singleton;
    split; try tauto; intros Hc; repeat split; auto; by intros ->.
Qed.

Lemma handler_round_trip_witness :
  let w := World {[1%positive]} ∅ [] [] in
  handler_exit 2%positive (handler_enter 2%positive w) = w ∧
  handler_exit 2%positive w = w.
Proof.
  refine (handler_round_trip 2%positive (World {[1%positive]} ∅ [] []) _).
  vm_compute. intros H. discriminate H.
Defined.

(** ** The wire format *)

Lemma string_app_length (s t : string) :
  String.length (s +:+ t) = String.length s + String.length t.
Proof. induction s as [|a s IH]; simpl; [done|]. by rewrite IH. Qed.

Lemma string_app_inj_r (t s1 s2 : string) : s1 +:+ t = s2 +:+ t → s1 = s2.
Proof.
  revert s2. induction s1 as [|a s1 IH]; intros [|b s2] H; [done|..].
  - apply (f_equal String.length) in H.
    rewrite !string_app_length in H. simpl in H. lia.
  - apply (f_equal String.length) in H.
    rewrite !string_app_length in H. simpl in H. lia.
  - simpl in H. injection H as -> H. f_equal. by apply IH.
Qed.

(** X21.  A frame tells its value: two values with the same frame are the
    same value. *)
Theorem json_dumps_value_inj (v v' : Z) :
  json_dumps_value v = json_dumps_value v' → v = v'.
Proof.
  unfold json_dumps_value. intros H.
  repeat apply String.app_inj in H.
  apply string_app_inj_r in H. by apply pretty_Z_inj in H.
Qed.

Lemma json_dumps_value_inj_witness : (42 = 42)%Z.
Proof. exact (json_dumps_value_inj 42 42 eq_refl). Defined.

(** ** The signal path and the registry *)

(** What a pass of the inner loop does to the variables of the loop does not
    involve the world. *)
Lemma window_loop_state (np : numpy) (WINDOW fuel : nat) (st st' : loop_state)
    (w w' : world) :
  window_loop np WINDOW fuel st w = Some (inr st', w') →
  ∃ (blocks : list (list Q)) (rest : list Q),
    drain_loop WINDOW fuel (buffer st) = Some (blocks, rest) ∧
    st' = LoopState rest
            (bounds_after (min_beta st, max_beta st)
               (map (band_power np) blocks)).1
            (bounds_after (min_beta st, max_beta st)
               (map (band_power np) blocks)).2.
Proof.
  revert st w. induction fuel as [|fuel IH]; intros st w; [done|].
  cbn [window_loop drain_loop].
  destruct (decide (WINDOW ≤ length (buffer st))); cycle 1.
  { intros [= <- <-]. exists [], (buffer st). split; [done|]. by destruct st. }
  unfold process_block.
  rewrite (normalize_eta (band_power np (take WINDOW (buffer st)))).
  set (r := normalize _ _ _).
  set (st1 := LoopState (drop (OVERLAP WINDOW) (buffer st))
                (Some (min_seen r)) (Some (max_seen r))).
  assert (Hnext : ∀ w1, window_loop np WINDOW fuel st1 w1 = Some (inr st', w') →
    ∃ (blocks : list (list Q)) (rest : list Q),
      match drain_loop WINDOW fuel (drop (OVERLAP WINDOW) (buffer st)) with
      | Some (blocks0, rest0) => Some (take WINDOW (buffer st) :: blocks0, rest0)
      | None => None
      end = Some (blocks, rest) ∧
      st' = LoopState rest
              (bounds_after (min_beta st, max_beta st)
                 (map (band_power np) blocks)).1
              (bounds_after (min_beta st, max_beta st)
                 (map (band_power np) blocks)).2).
  { intros w1 Hloop. apply IH in Hloop as (blocks & rest & Hd & ->).
    cbn [buffer st1] in Hd. rewrite Hd. by eexists _, _. }
  destruct (value_of r) as [val|]; [|apply Hnext].
  destruct (broadcast _ w) as [[e|[]] w1]; [done|apply Hnext].
Qed.

(** X22.  The registry cannot disturb the signal path: whatever the
    subscribers and the environment are, a capture loop that ends without an
    exception leaves the buffer that cutting the chunks leaves and the bounds
    of the band powers of the blocks cut; so two runs over the same chunks in
    two different worlds end with the same buffer and the same bounds. *)
Theorem audio_loop_state (np : numpy) (WINDOW : nat) (chunks : list (list Q))
    (st st' : loop_state) (w w' : world) :
  audio_loop np WINDOW chunks st w = Some (inr st', w') →
  ∃ passes : list (list (list Q) * list Q),
    capture WINDOW (buffer st) chunks = Some passes ∧
    st' = LoopState (default (buffer st) (last passes.*2))
            (bounds_after (min_beta st, max_beta st)
               (map (band_power np) (concat passes.*1))).1
            (bounds_after (min_beta st, max_beta st)
               (map (band_power np) (concat passes.*1))).2.
Proof.
  revert st w. induction chunks as [|data chunks IH]; intros st w.
  - intros [= <- <-]. exists []. split; [done|]. by destruct st.
  - cbn [audio_loop capture].
    destruct (window_loop _ _ _ _ _) as [[[e|st1] w1]|] eqn:Hloop; [done| |done].
    intros Hrest.
    apply window_loop_state in Hloop as (blocks & rest & Hd & ->).
    cbn [buffer min_beta max_beta] in Hd.
    apply IH in Hrest as (passes & Hc & ->).
    cbn [buffer min_beta max_beta] in *.
    unfold drain. rewrite Hd, Hc. eexists. split; [done|].
    cbn [fmap list_fmap fst snd concat].
    rewrite map_app, bounds_after_app, <- surjective_pairing, last_cons.
    by destruct (last passes.*2).
Qed.

Lemma audio_loop_state_witness :
  ∃ passes : list (list (list Q) * list Q),
    capture 4 [] [[1; 2]; [3; 4]]%Q = Some passes ∧
    LoopState [3; 4]%Q (Some 0%Q) (Some 0%Q) =
      LoopState (default [] (last passes.*2))
        (bounds_after (None, None)
           (map (band_power numpy4) (concat passes.*1))).1
        (bounds_after (None, None)
           (map (band_power numpy4) (concat passes.*1))).2.
Proof.
  exact (audio_loop_state numpy4 4 [[1; 2]; [3; 4]]%Q (LoopState [] None None) _
           (World {[1%positive]} ∅ [] [[2%positive]]) _ eq_refl).
Defined.

(** ** A run at the deployed sizes *)

Local Open Scope Q_scope.

Lemma nth_replicate_default {A : Type} (x : A) (n j : nat) :
  nth j (replicate n x) x = x.
Proof. revert j. induction n as [|n IH]; intros [|j]; simpl; auto. Qed.

(** Silence has no band power. *)
Lemma band_power_silence (np : numpy) (n : nat) :
  band_power np (replicate n 0) == 0.
Proof.
  rewrite band_power_indexwise. unfold analyze_spec. cbv zeta.
  apply np_sum_zero. intros k _. destruct (in_band _); [|reflexivity].
  unfold abs_sq, dft_bin. cbn [fst snd].
  set (re := np_sum _). set (im := np_sum _).
  assert (Hre : re == 0).
  { apply np_sum_zero. intros j _. rewrite nth_replicate_default. ring. }
  assert (Him : im == 0).
  { apply np_sum_zero. intros j _. rewrite nth_replicate_default. ring. }
  rewrite Hre, Him. ring.
Qed.

(** The band power of a unit impulse on the first sample of a window of
    44100: only the first term of every bin is not zero, the taper there is
    [0.54 - 0.46 = 0.08] and the cosine and sine are those of the angle 0;
    every one of the nineteen bins of the band has the squared magnitude
    [0.0064]. *)
Lemma band_power_impulse (np : numpy) (m : nat) :
  S m = Z.to_nat 44100 →
  cos2pi np 0 m == 1 → cos2pi np 0 (S m) == 1 → sin2pi np 0 (S m) == 0 →
  band_power np (1 :: replicate m 0) == 76 # 625.
Proof.
  intros Hm Hc1 Hc2 Hs.
  rewrite band_power_indexwise. cbn [length]. rewrite length_replicate.
  unfold analyze_spec. cbv zeta.
  assert (Hbins : (S m / 2 + 1)%nat = Z.to_nat 22051).
  { rewrite Hm. apply Nat2Z.inj.
    rewrite Nat2Z.inj_add, Nat2Z.inj_div, !Z2Nat.id by lia. reflexivity. }
  rewrite Hbins.
  rewrite (np_sum_range (λ k, in_band (bin_frequency (Z.to_nat 22051) k)) _ 12 19);
    [|lia|intros k _; rewrite (proj2 (deployed_band k)); lia].
  rewrite (np_sum_ext _ (λ _, 4 # 625)); [reflexivity|].
  intros k _.
  assert (Hw : hamming_weight np (S m) 0 == 2 # 25).
  { unfold hamming_weight. rewrite decide_False by lia.
    replace (S m - 1)%nat with m by lia. rewrite Hc1. reflexivity. }
  assert (Hrest : ∀ j, In j (seq 1 m) →
    nth j (1 :: replicate m 0) 0 == 0).
  { intros j Hj. apply in_seq in Hj. destruct j as [|j]; [lia|].
    cbn [nth]. by rewrite nth_replicate_default. }
  unfold abs_sq, dft_bin. cbn [fst snd seq map np_sum foldr].
  change (foldr Qplus 0) with np_sum. cbn [nth Nat.mul].
  set (re := np_sum _). set (im := np_sum _).
  assert (Hre : re == 0).
  { apply np_sum_zero. intros j Hj. rewrite (Hrest j Hj). ring. }
  assert (Him : im == 0).
  { apply np_sum_zero. intros j Hj. rewrite (Hrest j Hj). ring. }
  rewrite Hre, Him, Hw, Hc2, Hs. reflexivity.
Qed.

(** The first update returns no value, and a sample below it then gives 0. *)
Lemma feed_quieter (a b : Q) :
  b < a →
  feed no_bounds [a; b] = [(None, a, a); (Some 0%Z, b, a)] ∧
  bounds_after no_bounds [a; b] = (Some b, Some a).
Proof.
  intros Hlt.
  assert (Hfirst : normalize a None None = (None, a, a)).
  { unfold normalize.
    by assert (Qeq_bool a a = true) as -> by (by apply Qeq_bool_iff). }
  assert (Hsecond : normalize b (Some a) (Some a) = (Some 0%Z, b, a)).
  { rewrite normalize_eta, normalize_value. cbv zeta.
    rewrite normalize_min, normalize_max.
    destruct (py_min_cases a b) as [[-> ?]|[-> _]]; [lra|].
    destruct (py_max_cases a b) as [[-> _]|[-> ?]]; [|lra].
    destruct (Qeq_bool a b) eqn:E; [apply Qeq_bool_iff in E; lra|].
    do 3 f_equal. rewrite (py_round_comp _ 0); [done|].
    unfold Qminus. rewrite Qplus_opp_r. unfold Qdiv. by rewrite !Qmult_0_l. }
  split.
  - rewrite !feed_cons. cbn [fst snd no_bounds]. rewrite Hfirst.
    unfold min_seen, max_seen. cbn [fst snd]. by rewrite Hsecond.
  - unfold bounds_after. cbn [foldl fst snd no_bounds]. rewrite Hfirst.
    unfold min_seen, max_seen. cbn [fst snd]. by rewrite Hsecond.
Qed.

Local Close Scope Q_scope.

Section TwoWindows.
Variable half : nat.
Hypothesis half_pos : 1 ≤ half.

Lemma capture_three (c1 c2 c3 : list Q) :
  length c1 = half → length c2 = half → length c3 = half →
  capture (2 * half) [] [c1; c2; c3] =
    Some [([], c1); ([c1 ++ c2], c2); ([c2 ++ c3], c3)].
Proof.
  intros H1 H2 H3.
  change (capture (2 * half) [] [c1; c2; c3]) with
    (match drain (2 * half) (append [] c1) with
     | Some (blocks, buffer) =>
         match capture (2 * half) buffer [c2; c3] with
         | Some passes => Some ((blocks, buffer) :: passes)
         | None => None
         end
     | None => None
     end).
  unfold append. rewrite app_nil_l, drain_short by lia.
  rewrite (capture_steady half half_pos c1 [c2; c3] H1) by (by repeat constructor).
  done.
Qed.

(** Three chunks of [OVERLAP] samples make two windows.  When the band
    power of the second is below that of the first, the loop publishes one
    frame, with the value 0, to every member of the registry, removes those
    that have gone, and keeps the two band powers as bounds. *)
Lemma audio_loop_quieter_window (np : numpy) (c1 c2 c3 : list Q)
    (cl cls : gset conn) :
  length c1 = half → length c2 = half → length c3 = half →
  (band_power np (c2 ++ c3) < band_power np (c1 ++ c2))%Q →
  audio_loop np (2 * half) [c1; c2; c3] (LoopState [] None None)
    (World cl cls [] []) =
    Some (inr (LoopState c3 (Some (band_power np (c2 ++ c3)))
                            (Some (band_power np (c1 ++ c2)))),
          World (cl ∖ cls) cls
            (attempts cls (json_dumps_value 0) (elements cl)) []).
Proof.
  intros H1 H2 H3 Hlt.
  pose proof (audio_loop_quiet np (2 * half) [c1; c2; c3] (LoopState [] None None)
                cl cls [] _ (capture_three c1 c2 c3 H1 H2 H3)) as Hrun.
  cbv zeta in Hrun.
  cbn [buffer min_beta max_beta fmap list_fmap fst snd concat app map last
       default from_option id] in Hrun.
  destruct (feed_quieter _ _ Hlt) as [Hfeed Hbounds].
  unfold no_bounds in Hfeed, Hbounds. rewrite Hfeed, Hbounds in Hrun.
  destruct Hrun as (cl' & log' & Hrun & Hall).
  rewrite Hrun. clear Hrun.
  assert (Hmsgs : omap value_of
            [(None, band_power np (c1 ++ c2), band_power np (c1 ++ c2));
             (Some 0%Z, band_power np (c2 ++ c3), band_power np (c1 ++ c2))] =
          [0%Z]) by done.
  rewrite Hmsgs in Hall. cbn [map broadcast_all] in Hall.
  rewrite broadcast_quiet in Hall. by injection Hall as <- <-.
Qed.
End TwoWindows.

(** The program's sizes: windows of 44100 samples, read 22050 at a time.
    An impulse and then silence: the second window is quieter than the
    first, and the frame [{"value": 0}] is sent to both subscribers, of
    which the one that has gone is removed. *)
Lemma audio_loop_deployed_run :
  audio_loop numpy4 (2 * Z.to_nat 22050) [impulse_chunk; silent_chunk; silent_chunk]
    (LoopState [] None None) (World {[1; 2]} {[2]} [] [])%positive =
    Some (inr (LoopState silent_chunk
                 (Some (band_power numpy4 (silent_chunk ++ silent_chunk)))
                 (Some (band_power numpy4 (impulse_chunk ++ silent_chunk)))),
          World {[1]} {[2]}
            [(2, json_dumps_value 0, false); (1, json_dumps_value 0, true)]
            [])%positive.
Proof.
  assert (Hsilence : silent_chunk ++ silent_chunk =
                     replicate (Z.to_nat 22050 + Z.to_nat 22050) 0%Q).
  { unfold silent_chunk. by rewrite replicate_add. }
  assert (Himpulse : impulse_chunk ++ silent_chunk =
                     1%Q :: replicate (Z.to_nat 22049 + Z.to_nat 22050) 0%Q).
  { unfold impulse_chunk, silent_chunk. by rewrite replicate_add. }
  rewrite (audio_loop_quieter_window (Z.to_nat 22050)).
  - do 2 f_equal; by vm_compute.
  - lia.
  - unfold impulse_chunk. cbn [length]. rewrite length_replicate. lia.
  - apply length_replicate.
  - apply length_replicate.
  - rewrite Hsilence, Himpulse, band_power_silence.
    rewrite band_power_impulse; [reflexivity|lia|reflexivity..].
Qed.

Lemma audio_loop_frames_witness :
  ∃ l, sent (World {[1]} {[2]}
               [(2, json_dumps_value 0, false); (1, json_dumps_value 0, true)]
               [])%positive =
       sent (World {[1; 2]} {[2]} [] [])%positive ++ l ∧
       Forall value_frame l.
Proof.
  exact (audio_loop_frames numpy4 (2 * Z.to_nat 22050)
           [impulse_chunk; silent_chunk; silent_chunk]
           (LoopState [] None None) (World {[1; 2]} {[2]} [] [])%positive _ _
           audio_loop_deployed_run).
Defined.
